(** * The concurrency core of the completion engine

    A shallow embedding of

    - [coq/lsp/requests/request.py]: the epoch-tagged reply correlator
      ([_lsp_notify], [async_request]);
    - [coq/shared/executor.py]: the serial executor ([Executor.submit]);
    - [coq/server/registrants/omnifunc.py]: the gating predicate
      ([_should_cont]), the supervisor loop ([_launch_loop]) with the body
      of a cycle ([c0]), [omnifunc], the resolve flow ([_resolve]) and
      [_comp_done];
    - [coq/server/registrants/snippets.py]: what [_load_snips] sets out to
      clean and to load.

    The orchestration code runs on a single-threaded cooperative scheduler:
    between two suspension points ([await], [yield]) a coroutine runs
    atomically.  Each coroutine is therefore modelled as a frame with a
    program counter that names the suspension point it is parked at, and the
    scheduler as a list of events, each of which runs one atomic block. *)

From Stdlib Require Import ZArith NArith List Bool Lia.
From stdpp Require Import base option list gmap strings fin_maps sorting.

Open Scope Z_scope.

(* ===================================================================== *)
(** * Part I: definitions                                                 *)
(* ===================================================================== *)

(** ** Python strings *)

Module PyStr.

(** A Python [str] is a sequence of Unicode code points. *)
Definition str := list N.

(** [str.isspace] on one code point: the characters CPython's
    [_PyUnicode_IsWhitespace] accepts (bidirectional type WS, B or S, or
    category Zs). *)
Definition isspace (c : N) : bool :=
  ((9 <=? c) && (c <=? 13) ||
   (28 <=? c) && (c <=? 32) ||
   (c =? 133) || (c =? 160) || (c =? 5760) ||
   (8192 <=? c) && (c <=? 8202) ||
   (c =? 8232) || (c =? 8233) || (c =? 8239) || (c =? 8287) ||
   (c =? 12288))%N.

(** [s.rstrip()]: drop the longest suffix of whitespace. *)
Fixpoint rstrip (s : str) : str :=
  match s with
  | [] => []
  | c :: s' =>
      match rstrip s' with
      | [] => if isspace c then [] else [c]
      | r => c :: r
      end
  end.

(** [len(s)] *)
Definition len (s : str) : Z := Z.of_nat (length s).

(** Truthiness of a string: [bool(s)]. *)
Definition truthy (s : str) : bool :=
  match s with [] => false | _ => true end.

(** [a != b] on strings. *)
Definition neqb (a b : str) : bool := negb (bool_decide (a = b)).

End PyStr.

(** ** The records of [coq/shared/types.py], [coq/shared/runtime.py] and
    [coq/server/state.py]

    Their declarations are not part of the sources at hand; the records
    below carry the fields the three modules read or write. *)

Module Types.
Import PyStr.

Definition UUID := N.
Definition NvimPos := (Z * Z)%type.

Section Records.
(** The LSP item / command carried by an LSP extern, and a range edit:
    opaque to this core. *)
Context {Item RangeEdit : Type}.

(** [Completion.extern]: [ExternLSP], [ExternPath], or any other extern
    class. *)
Inductive Extern :=
| ExternLSP (client : option string) (item : Item)
| ExternPath (is_dir : bool)
| ExternOther.

Record Completion := {
  uid : UUID;
  secondary_edits : list RangeEdit;
  extern : option Extern;
}.

Record Metric := {
  instance : UUID;
  comp : Completion;
}.

Record Context := {
  manual : bool;
  change_id : UUID;
  commit_id : UUID;
  position : NvimPos;
  line_before : str;
  syms_before : str;
}.

Record State := {
  s_change_id : UUID;
  s_commit_id : UUID;
  context : Context;
  inserted_pos : NvimPos;
  last_edit : Metric;
  pum_width : Z;
}.

(** [isinstance(extern, ExternLSP)] *)
Definition isinstance_ExternLSP (e : option Extern) : bool :=
  match e with Some (ExternLSP _ _) => true | _ => false end.

(** [dataclasses.replace(comp, secondary_edits=edits)] *)
Definition replace_secondary_edits (c : Completion) (edits : list RangeEdit)
  : Completion :=
  {| uid := uid c; secondary_edits := edits; extern := extern c |}.

(** [dataclasses.replace(metric, comp=c)] *)
Definition replace_comp (m : Metric) (c : Completion) : Metric :=
  {| instance := instance m; comp := c |}.

End Records.

Arguments Extern : clear implicits.
Arguments Completion : clear implicits.
Arguments Metric : clear implicits.
Arguments State : clear implicits.
End Types.

(** ** [omnifunc.py]: the gating predicate *)

Module Gating.
Import PyStr Types.

Section Predicate.
Context {Item RangeEdit : Type}.
Abbreviation State := (State Item RangeEdit).

(** [_should_cont], lines 40-54. *)
Definition _should_cont (state : State) (prev cur : Context) : bool :=
  if manual cur then true
  else if bool_decide (change_id prev = change_id cur) then false
  else if bool_decide (position cur = inserted_pos state) then
    match extern (comp (last_edit state)) with
    | Some (ExternPath is_dir) => is_dir
    | _ => false
    end
  else if neqb (syms_before cur) [] then true
  else
    let stripped := rstrip (line_before cur) in
    truthy stripped && (len (line_before cur) - len stripped <=? 1).

(** The last inserted edit completed a directory of a path: typing goes
    on into the same path-like fragment. *)
Definition continues_path (state : State) : Prop :=
  extern (comp (last_edit state)) = Some (ExternPath true).

End Predicate.
End Gating.

(** ** [request.py]: the reply correlator *)

Module Request.

Section Correlator.
(** The type of replies ([Any] in the source). *)
Context {Any : Type}.

Definition Item := (option string * Any)%type.

Record _Session := {
  uid : Z;
  done : bool;
  acc : list Item;
}.

Record _Payload := {
  method : string;
  p_uid : Z;
  client : option string;
  p_done : bool;
  reply : Any;
}.

(** The module-level registries: [_UIDS] is the next value of
    [itertools.count()], [_CONDS] the methods that own a [Condition],
    [_STATE] the [defaultdict] of sessions. *)
Record Registry := {
  _UIDS : Z;
  _CONDS : gset string;
  _STATE : gmap string _Session;
}.

(** The [default_factory] of [_STATE], line 35. *)
Definition default_session : _Session :=
  {| uid := -1; done := true; acc := [] |}.

(** [_STATE[m]] read: a [defaultdict] stores the default on a miss. *)
Definition getitem (m : string) (st : gmap string _Session)
  : _Session * gmap string _Session :=
  match st !! m with
  | Some s => (s, st)
  | None => (default_session, <[m := default_session]> st)
  end.

(** [_CONDS.setdefault(m, Condition())] *)
Definition setdefault (m : string) (cs : gset string) : gset string :=
  {[ m ]} ∪ cs.

(** A running [async_request] generator.  [AtLoop]: about to execute
    line 77 (after [async_call] returned, or woken from [cond.wait()]);
    [AtYield rest]: suspended at line 80, [rest] being the items of the
    snapshot [acc.acc] the [for] loop has not reached yet; [AtWait]:
    suspended in [cond.wait()], line 87; [Returned]: left the loop by
    [break]. *)
Inductive Pc :=
| AtLoop
| AtYield (rest : list Item)
| AtWait
| Returned.

(** The locals of the generator: [method], [uid], [done] (line 64). *)
Record Frame := {
  f_method : string;
  f_uid : Z;
  f_done : bool;
  pc : Pc;
}.

Record World := {
  reg : Registry;
  frames : list Frame;
}.

(** [cond.notify_all()] on the condition of method [m]: every generator
    parked in [cond.wait()] on it becomes runnable again.  The lock of a
    [Condition] is never held across a suspension point here
    ([cond.wait()] releases it), so [async with cond:] does not suspend
    and the notification belongs to the atomic block that precedes it. *)
Definition wake (m : string) (f : Frame) : Frame :=
  match pc f with
  | AtWait =>
      if bool_decide (f_method f = m)
      then {| f_method := f_method f; f_uid := f_uid f;
              f_done := f_done f; pc := AtLoop |}
      else f
  | _ => f
  end.

Definition notify_all (m : string) (fs : list Frame) : list Frame :=
  wake m <$> fs.

(** Lines 64-74: the part of [async_request] before the loop.  Returns
    the allocated uid with the new world; the generator is left at the
    head of the loop. *)
Definition async_request_open (m : string) (w : World) : Z * World :=
  let r := reg w in
  let uid' := _UIDS r in
  let done' := false in
  let conds := setdefault m (_CONDS r) in
  let st := <[m := {| uid := uid'; done := done'; acc := [] |}]> (_STATE r) in
  let fs := notify_all m (frames w) in
  (uid',
   {| reg := {| _UIDS := uid' + 1; _CONDS := conds; _STATE := st |};
      frames := fs ++ [ {| f_method := m; f_uid := uid';
                           f_done := done'; pc := AtLoop |} ] |}).

(** Lines 45-55: the coroutine [cont] of [_lsp_notify]. *)
Definition _lsp_notify (payload : _Payload) (w : World) : World :=
  let r := reg w in
  let conds := setdefault (method payload) (_CONDS r) in
  let '(acc', st) := getitem (method payload) (_STATE r) in
  let st' :=
    if bool_decide (p_uid payload = uid acc') then
      <[method payload :=
          {| uid := p_uid payload;
             done := p_done payload;
             acc := acc acc' ++ [(client payload, reply payload)] |}]> st
    else st in
  {| reg := {| _UIDS := _UIDS r; _CONDS := conds; _STATE := st' |};
     frames := notify_all (method payload) (frames w) |}.

(** The [for] loop of lines 79-80 over what is left of the snapshot, and
    lines 81-87 once it is exhausted: the next program counter and the
    item yielded, if any. *)
Definition iterate (f : Frame) (items : list Item) : Pc * option Item :=
  match items with
  | x :: rest => (AtYield rest, Some x)
  | [] => if f_done f then (Returned, None) else (AtWait, None)
  end.

(** One atomic block of the generator, from where it is parked to its
    next suspension point. *)
Definition resume (st : gmap string _Session) (f : Frame)
  : gmap string _Session * Pc * option Item :=
  match pc f with
  | AtLoop =>
      let '(acc', st') := getitem (f_method f) st in
      if bool_decide (uid acc' = f_uid f) then
        let '(pc', out) := iterate f (acc acc') in (st', pc', out)
      else if bool_decide (uid acc' > f_uid f) then (st', Returned, None)
      else (st', AtWait, None)
  | AtYield rest =>
      let '(pc', out) := iterate f rest in (st, pc', out)
  | AtWait => (st, AtWait, None)
  | Returned => (st, Returned, None)
  end.

Definition set_pc (f : Frame) (p : Pc) : Frame :=
  {| f_method := f_method f; f_uid := f_uid f; f_done := f_done f; pc := p |}.

(** The scheduler runs generator number [c]. *)
Definition advance (c : nat) (w : World) : World * option (nat * Item) :=
  match frames w !! c with
  | None => (w, None)
  | Some f =>
      let '(st', pc', out) := resume (_STATE (reg w)) f in
      ({| reg := {| _UIDS := _UIDS (reg w); _CONDS := _CONDS (reg w);
                    _STATE := st' |};
          frames := <[c := set_pc f pc']> (frames w) |},
       option_map (pair c) out)
  end.

(** What the scheduler can do next. *)
Inductive Event :=
| Open (m : string)
| Ingest (p : _Payload)
| Advance (c : nat).

Definition step (w : World) (e : Event) : World * option (nat * Item) :=
  match e with
  | Open m => (snd (async_request_open m w), None)
  | Ingest p => (_lsp_notify p w, None)
  | Advance c => advance c w
  end.

Definition emit (o : option (nat * Item)) : list (nat * Item) :=
  match o with Some x => [x] | None => [] end.

(** A schedule, with everything the generators yield, tagged with the
    generator that yields it. *)
Fixpoint run (w : World) (evs : list Event) : World * list (nat * Item) :=
  match evs with
  | [] => (w, [])
  | e :: evs' =>
      let '(w1, o) := step w e in
      let '(w2, out) := run w1 evs' in
      (w2, emit o ++ out)
  end.

(** The state of the module right after import. *)
Definition init : World :=
  {| reg := {| _UIDS := 0; _CONDS := ∅; _STATE := ∅ |}; frames := [] |}.

(** The session a reader of [_STATE[m]] sees. *)
Definition session (w : World) (m : string) : _Session :=
  fst (getitem m (_STATE (reg w))).

(** What generator [c] yields in an output sequence. *)
Definition yielded_by (c : nat) (out : list (nat * Item)) : list Item :=
  snd <$> filter (λ x, fst x = c) out.

(** The epochs the opens of a schedule hand out, in call order, each
    with its channel. *)
Fixpoint opened (w : World) (evs : list Event) : list (string * Z) :=
  match evs with
  | [] => []
  | e :: evs' =>
      match e with
      | Open m => [(m, fst (async_request_open m w))]
      | _ => []
      end ++ opened (fst (step w e)) evs'
  end.

(** During the schedule [evs] from [w0], a payload of channel [m] tagged
    [u] that carries [it] was ingested while [u] was the epoch of the
    channel's session. *)
Definition Accepted (w0 : World) (evs : list Event)
    (m : string) (u : Z) (it : Item) : Prop :=
  ∃ pre p post,
    evs = pre ++ Ingest p :: post ∧ method p = m ∧ p_uid p = u ∧
    it = (client p, reply p) ∧ uid (session (fst (run w0 pre)) m) = u.

(** Whatever a session has accumulated, and whatever a generator still
    has to yield from its snapshot, was accepted at the epoch it is held
    under. *)
Definition provenance (w0 : World) (evs : list Event) (w : World) : Prop :=
  (∀ m it, it ∈ acc (session w m) →
           Accepted w0 evs m (uid (session w m)) it) ∧
  (∀ c f rest it,
     frames w !! c = Some f → pc f = AtYield rest → it ∈ rest →
     Accepted w0 evs (f_method f) (f_uid f) it).

(** Every generator holds an epoch the counter has already passed. *)
Definition wf (w : World) : Prop :=
  Forall (λ f, f_uid f < _UIDS (reg w)) (frames w).

(** The program counter of generator [c]. *)
Definition pc_of (w : World) (c : nat) : option Pc := pc <$> frames w !! c.

(** The number of times a schedule resumes generator [c]. *)
Fixpoint resumptions (c : nat) (evs : list Event) : nat :=
  match evs with
  | [] => 0
  | Advance c' :: evs' =>
      if bool_decide (c' = c) then S (resumptions c evs') else resumptions c evs'
  | _ :: evs' => resumptions c evs'
  end.

End Correlator.

Arguments Item : clear implicits.
Arguments _Session : clear implicits.
Arguments _Payload : clear implicits.
Arguments Registry : clear implicits.
Arguments Frame : clear implicits.
Arguments World : clear implicits.
Arguments Event : clear implicits.
Arguments Pc : clear implicits.
End Request.

(** ** [executor.py]: the serial executor *)

Module Executor.

Section Exec.
(** Results, instances of [Exception], and the other instances of
    [BaseException] ([KeyboardInterrupt], [SystemExit], ...). *)
Context {T Exn BaseExn : Type}.

(** What the call of [f] on its arguments does. *)
Inductive Outcome :=
| Returns (v : T)
| Raises (e : Exn)
| RaisesBase (b : BaseExn).

(** The state of a [concurrent.futures.Future]. *)
Inductive Future :=
| PENDING
| CANCELLED
| FINISHED (r : T + Exn).

(** [Future.set_result] and [Future.set_exception]: [None] stands for
    [InvalidStateError], raised unless the future is pending. *)
Definition set_result (fut : Future) (v : T) : option Future :=
  match fut with PENDING => Some (FINISHED (inl v)) | _ => None end.

Definition set_exception (fut : Future) (e : Exn) : option Future :=
  match fut with PENDING => Some (FINISHED (inr e)) | _ => None end.

(** [with suppress(InvalidStateError): ...] around a setter. *)
Definition suppress (fut : Future) (r : option Future) : Future :=
  match r with Some fut' => fut' | None => fut end.

(** The closure [cont] of lines 24-32, run on the future [fut] it closes
    over: the future afterwards, or the exception that escapes. *)
Definition cont {A} (f : A → Outcome) (args : A) (fut : Future)
  : Future + BaseExn :=
  match f args with
  | Raises e => inl (suppress fut (set_exception fut e))
  | Returns ret => inl (suppress fut (set_result fut ret))
  | RaisesBase b => inr b
  end.

(** A queued closure: the callable, its arguments and the address of the
    future it closes over. *)
Record Job := {
  j_A : Type;
  j_f : j_A → Outcome;
  j_args : j_A;
  j_fut : nat;
}.

(** The executor: the queue [_q], the futures allocated so far, and
    whether the thread running [_forever] is still in its loop. *)
Record Executor := {
  _q : list Job;
  heap : list Future;
  worker : bool;
}.

(** [__init__] *)
Definition new : Executor := {| _q := []; heap := []; worker := true |}.

(** [_forever], lines 15-18, on the queue as it stands: each closure is
    taken and called in turn; an exception that escapes a closure ends
    the loop and leaves the rest of the queue behind. *)
Fixpoint _forever (q : list Job) (h : list Future) : list Job * list Future * bool :=
  match q with
  | [] => ([], h, true)
  | j :: q' =>
      match h !! j_fut j with
      | None => _forever q' h
      | Some fut =>
          match cont (j_f j) (j_args j) fut with
          | inl fut' => _forever q' (<[j_fut j := fut']> h)
          | inr _ => (q', h, false)
          end
      end
  end.

Definition run_worker (ex : Executor) : Executor :=
  if worker ex then
    let '(q, h, alive) := _forever (_q ex) (heap ex) in
    {| _q := q; heap := h; worker := alive |}
  else ex.

(** What the caller of [fut.result()] observes. *)
Inductive Result :=
| Value (v : T)
| Raised (e : Exn)
| RaisedCancelledError
| Blocked.

Definition result (fut : option Future) : Result :=
  match fut with
  | Some (FINISHED (inl v)) => Value v
  | Some (FINISHED (inr e)) => Raised e
  | Some CANCELLED => RaisedCancelledError
  | Some PENDING | None => Blocked
  end.

(** [submit], lines 20-35: allocate the future, queue the closure, and
    wait on the future while the worker goes through the queue. *)
Definition submit {A} (f : A → Outcome) (args : A) (ex : Executor)
  : Result * Executor :=
  let fut := length (heap ex) in
  let job := {| j_A := A; j_f := f; j_args := args; j_fut := fut |} in
  let ex1 := {| _q := _q ex ++ [job]; heap := heap ex ++ [PENDING];
                worker := worker ex |} in
  let ex2 := run_worker ex1 in
  (result (heap ex2 !! fut), ex2).

(** A call that raises at most an [Exception]. *)
Definition safe (o : Outcome) : Prop :=
  match o with RaisesBase _ => False | _ => True end.


(** What [cont] leaves in a pending future. *)
Definition settled (o : Outcome) : Future :=
  match o with
  | Returns v => FINISHED (inl v)
  | Raises e => FINISHED (inr e)
  | RaisesBase _ => PENDING
  end.

(** The queued closures raise at most [Exception] and close over
    allocated futures. *)
Definition queue_ok (ex : Executor) : Prop :=
  Forall (λ j, safe (j_f j (j_args j)) ∧ (j_fut j < length (heap ex))%nat) (_q ex).

End Exec.

Arguments Outcome : clear implicits.
Arguments Future : clear implicits.
Arguments Job : clear implicits.
Arguments Executor : clear implicits.
Arguments Result : clear implicits.
End Executor.

(** ** [omnifunc.py]: the resolve flow *)

Module Resolve.
Import Types.

Section Flow.
Context {Item RangeEdit Exn : Type}.
Abbreviation Extern := (Extern Item).
Abbreviation Completion := (Completion Item RangeEdit).
Abbreviation Metric := (Metric Item RangeEdit).

(** What [_resolve] does to the outside, in order. *)
Inductive Effect :=
| LruGet (uid : UUID)
| Go (extern : Extern)
| Wait
| Cancel (not_done : nat)
| AwaitDone.

(** What the coroutine [resolve(nvim, extern)] has done by the deadline
    [resolve_timeout]: delivered its value (the first reply parsed, or
    [None]), failed, or nothing yet. *)
Inductive Coroutine :=
| Replied (comp : option Completion)
| Failed (e : Exn)
| Silent.

(** The task [wait] looks at when it returns. *)
Inductive Task :=
| TaskPending
| TaskResult (comp : option Completion)
| TaskException (e : Exn).

(** The surroundings of one call: the enrichment cache [stack.lru] and
    the behaviour of the engine behind [resolve]. *)
Record Env := {
  lru : gmap UUID Completion;
  engine : Extern → Coroutine;
}.

(** Computations that read the surroundings, log their effects and may
    raise. *)
Definition M (A : Type) : Type := Env → list Effect * (Exn + A).

Definition ret {A} (a : A) : M A := λ _, ([], inr a).

Definition raise {A} (e : Exn) : M A := λ _, ([], inl e).

Definition bind {A B} (m : M A) (k : A → M B) : M B :=
  λ env,
    match m env with
    | (l, inl e) => (l, inl e)
    | (l, inr a) => let '(l', r) := k a env in (l ++ l', r)
    end.

Definition perform {A} (eff : Effect) (a : Env → A) : M A :=
  λ env, ([eff], inr (a env)).

Local Notation "'let*' x ':=' m 'in' k" := (bind m (λ x, k))
  (at level 10, x pattern, m at level 100, k at level 200).

(** Modelled from the spec: the wrapper task of [pynvim_pp.lib.go], whose
    code is not among the sources.  Section 4.3: a failure surfaced while
    the wait is outstanding is treated identically to a timeout (fall
    back, do not propagate); so the task of a coroutine that fails ends
    without a value and without an exception. *)
Definition go (c : Coroutine) : Task :=
  match c with
  | Replied comp => TaskResult comp
  | Failed _ => TaskResult None
  | Silent => TaskPending
  end.

(** [asyncio.wait((task,), timeout=...)]: the sets [done] and
    [not_done]. *)
Definition wait (t : Task) : list Task * list Task :=
  match t with
  | TaskPending => ([], [t])
  | _ => ([t], [])
  end.

(** [await task] on a task of the [done] set. *)
Definition await_done (t : Task) : M (option Completion) :=
  match t with
  | TaskResult comp => perform AwaitDone (λ _, comp)
  | TaskException e => bind (perform AwaitDone (λ _, tt)) (λ _, raise e)
  | TaskPending => perform AwaitDone (λ _, None)
  end.

(** [replace(metric, comp=replace(metric.comp,
    secondary_edits=comp.secondary_edits))] *)
Definition merge (metric : Metric) (c : Completion) : Metric :=
  replace_comp metric
    (replace_secondary_edits (comp metric) (secondary_edits c)).

(** [_resolve], lines 163-185, over the task that [go] hands back. *)
Definition _resolve_with (go : Coroutine → Task) (metric : Metric) : M Metric :=
  match extern (comp metric) with
  | Some (ExternLSP cl it) =>
      let extern := ExternLSP cl it in
      let* hit := perform (LruGet (uid (comp metric)))
                    (λ env, lru env !! uid (comp metric)) in
      match hit with
      | Some c => ret (merge metric c)
      | None =>
          let* task := perform (Go extern) (λ env, go (engine env extern)) in
          let* (done, not_done) := perform Wait (λ _, wait task) in
          let* _ := perform (Cancel (length not_done)) (λ _, tt) in
          let* c := match done with
                    | t :: _ => await_done t
                    | [] => ret None
                    end in
          match c with
          | None => ret metric
          | Some c => ret (merge metric c)
          end
      end
  | _ => ret metric
  end.

Definition _resolve : Metric → M Metric := _resolve_with go.

End Flow.

Arguments Effect : clear implicits.
Arguments Coroutine : clear implicits.
Arguments Task : clear implicits.
Arguments Env : clear implicits.
End Resolve.

(** ** [omnifunc.py]: the supervisor loop of [_launch_loop] *)

Module Supervisor.

Section Loop.
(** [State] of [coq/server/state.py]; the loop only passes it on. *)
Context {State : Type}.

Definition Trigger := (State * bool)%type.

(** The life of a task created from [c0]: [Running] from
    [create_task] on; [Cancelling] once [Task.cancel()] has been called
    on it and until [CancelledError] has unwound it at its next
    suspension point; [Cancelled] and [Finished] are the two ways of
    being done. *)
Inductive Status := Running | Cancelling | Cancelled | Finished.

(** A task [c0(s, manual=manual)]. *)
Record Task := {
  args : Trigger;
  status : Status;
}.

Definition is_done (t : Task) : bool :=
  match status t with Cancelled | Finished => true | _ => false end.

Definition alive (t : Task) : bool := negb (is_done t).

(** Where [c2] is parked: in [event.wait()] (line 128) or in
    [cancel(task)] (line 132). *)
Inductive C2 := AtEvent | AtCancel.

(** The queue [_Q], the item the thread of [to_thread(_Q.get)] has taken
    and [c1] has not assigned yet, the closure variables [incoming] and
    [task], the [Event], the tasks created so far (a task is named by
    its index), and [c2]'s program counter. *)
Record Loop := {
  _Q : list Trigger;
  got : option Trigger;
  incoming : option Trigger;
  event : bool;
  task : option nat;
  tasks : list Task;
  c2 : C2;
}.

Definition init : Loop :=
  {| _Q := []; got := None; incoming := None; event := false;
     task := None; tasks := []; c2 := AtEvent |}.

(** [comp_func], line 148. *)
Definition comp_func (s : State) (manual : bool) (w : Loop) : Loop :=
  {| _Q := _Q w ++ [(s, manual)]; got := got w; incoming := incoming w;
     event := event w; task := task w; tasks := tasks w; c2 := c2 w |}.

(** [_Q.get] returns in the thread [c1] waits for. *)
Definition c1_get (w : Loop) : Loop :=
  match got w, _Q w with
  | None, x :: q =>
      {| _Q := q; got := Some x; incoming := incoming w; event := event w;
         task := task w; tasks := tasks w; c2 := c2 w |}
  | _, _ => w
  end.

(** Lines 121-122: [c1] resumes with the item, assigns [incoming] and
    sets the event. *)
Definition c1_set (w : Loop) : Loop :=
  match got w with
  | Some x =>
      {| _Q := _Q w; got := None; incoming := Some x; event := true;
         task := task w; tasks := tasks w; c2 := c2 w |}
  | None => w
  end.

(** [Task.cancel()]: a request, without effect on a task that is done. *)
Definition request_cancel (t : Task) : Task :=
  match status t with
  | Running => {| args := args t; status := Cancelling |}
  | _ => t
  end.

(** Lines 134-137. *)
Definition create_if_incoming (w : Loop) : Loop :=
  match incoming w with
  | Some x =>
      {| _Q := _Q w; got := got w; incoming := incoming w; event := event w;
         task := Some (length (tasks w));
         tasks := tasks w ++ [ {| args := x; status := Running |} ];
         c2 := AtEvent |}
  | None =>
      {| _Q := _Q w; got := got w; incoming := incoming w; event := event w;
         task := task w; tasks := tasks w; c2 := AtEvent |}
  end.

(** One atomic block of [c2], lines 126-137.  [cancel] (of [std2]) calls
    [Task.cancel()] and suspends until the task is done. *)
Definition c2_step (w : Loop) : Loop :=
  match c2 w with
  | AtEvent =>
      if event w then
        match task w with
        | Some k =>
            {| _Q := _Q w; got := got w; incoming := incoming w;
               event := false; task := task w;
               tasks := alter request_cancel k (tasks w); c2 := AtCancel |}
        | None =>
            create_if_incoming
              {| _Q := _Q w; got := got w; incoming := incoming w;
                 event := false; task := task w; tasks := tasks w;
                 c2 := AtEvent |}
        end
      else w
  | AtCancel =>
      match task w with
      | Some k =>
          match tasks w !! k with
          | Some t => if is_done t then create_if_incoming w else w
          | None => create_if_incoming w
          end
      | None => create_if_incoming w
      end
  end.

(** Task [k] is resumed after [Task.cancel()]: [CancelledError] unwinds
    it. *)
Definition unwind (t : Task) : Task :=
  match status t with
  | Cancelling => {| args := args t; status := Cancelled |}
  | _ => t
  end.

(** Task [k] runs [c0] to its end. *)
Definition finish (t : Task) : Task :=
  match status t with
  | Running => {| args := args t; status := Finished |}
  | _ => t
  end.

Definition on_task (f : Task → Task) (k : nat) (w : Loop) : Loop :=
  {| _Q := _Q w; got := got w; incoming := incoming w; event := event w;
     task := task w; tasks := alter f k (tasks w); c2 := c2 w |}.

Inductive Step :=
| CompFunc (s : State) (manual : bool)
| C1Get
| C1Set
| C2Step
| TaskUnwind (k : nat)
| TaskFinish (k : nat).

Definition step (w : Loop) (e : Step) : Loop :=
  match e with
  | CompFunc s manual => comp_func s manual w
  | C1Get => c1_get w
  | C1Set => c1_set w
  | C2Step => c2_step w
  | TaskUnwind k => on_task unwind k w
  | TaskFinish k => on_task finish k w
  end.

Definition run (w : Loop) (steps : list Step) : Loop := fold_left step steps w.

(** The triggers of a schedule, in the order [comp_func] queued them. *)
Definition triggers (steps : list Step) : list Trigger :=
  omap (λ e, match e with CompFunc s m => Some (s, m) | _ => None end) steps.

(** Nothing is left to do for [c1] and [c2]. *)
Definition quiescent (w : Loop) : Prop :=
  _Q w = [] ∧ got w = None ∧ event w = false ∧ c2 w = AtEvent.

(** The schedule that lets [c1] and [c2] work off what is pending:
    [c1] hands over each queued trigger, [c2] finishes the cancellation
    it is in and then serves the event. *)
Definition hand_over (w : Loop) : list Step :=
  match got w with Some _ => [C1Set] | None => [] end
  ++ concat (map (λ _, [C1Get; C1Set]) (_Q w)).

Definition finish_cancel (w : Loop) : list Step :=
  match c2 w, task w with
  | AtCancel, Some k => [TaskUnwind k; C2Step]
  | AtCancel, None => [C2Step]
  | AtEvent, _ => []
  end.

Definition serve_event (w : Loop) : list Step :=
  if event w then
    C2Step :: match task w with
              | Some k => [TaskUnwind k; C2Step]
              | None => []
              end
  else [].

Definition settle (w : Loop) : list Step :=
  let s1 := hand_over w in
  let w1 := run w s1 in
  let s2 := finish_cancel w1 in
  let w2 := run w1 s2 in
  s1 ++ s2 ++ serve_event w2.

(** The most recent trigger the loop holds: the last one queued, else
    the one in flight, else [incoming]. *)
Definition newest (w : Loop) : option Trigger :=
  match last (_Q w), got w with
  | Some x, _ => Some x
  | None, Some x => Some x
  | None, None => incoming w
  end.

(** What holds of the loop whenever the scheduler gets control. *)
Record Inv (w : Loop) : Prop := {
  (** every task but the one [task] refers to is done *)
  inv_single : ∀ k t, tasks w !! k = Some t → alive t = true → task w = Some k;
  inv_bound : ∀ k, task w = Some k → (k < length (tasks w))%nat;
  inv_none : task w = None → tasks w = [];
  inv_incoming : incoming w = None → task w = None;
  (** while [c2] awaits the cancellation, the task has been asked to stop *)
  inv_cancel : c2 w = AtCancel →
               ∃ k t, task w = Some k ∧ tasks w !! k = Some t ∧
                      status t ≠ Running;
  (** while [c2] awaits the event, the task has not been asked to stop *)
  inv_event : c2 w = AtEvent →
              ∀ k t, task w = Some k → tasks w !! k = Some t →
                     status t = Running ∨ status t = Finished;
  (** with the event served, the task runs on [incoming] *)
  inv_served : event w = false → c2 w = AtEvent →
               ∀ x, incoming w = Some x →
                    ∃ k t, task w = Some k ∧ tasks w !! k = Some t ∧
                           args t = x;
}.

End Loop.

Arguments Task : clear implicits.
Arguments Loop : clear implicits.
Arguments Step : clear implicits.
End Supervisor.

(** ** More about the reply correlator *)

Module RequestAux.
Import Request.

Section Correlator.
Context {Any : Type}.

(** The number of opens in a schedule. *)
Fixpoint opens (evs : list (Event Any)) : nat :=
  match evs with
  | [] => 0
  | Open _ :: evs' => S (opens evs')
  | _ :: evs' => opens evs'
  end.

(** The channel an event writes to, if any. *)
Definition channel_of (e : Event Any) : option string :=
  match e with
  | Open m => Some m
  | Ingest p => Some (method p)
  | Advance _ => None
  end.

(** Several payloads handed to [_lsp_notify] one after the other. *)
Definition ingest_all (ps : list (_Payload Any)) (w : World Any) : World Any :=
  foldl (λ w p, _lsp_notify p w) w ps.

(** The epochs of the sessions and of the generators are below the
    counter, and no generator is ahead of its channel. *)
Definition coherent (w : World Any) : Prop :=
  wf w ∧
  (∀ m, uid (session w m) < _UIDS (reg w)) ∧
  (∀ c f, frames w !! c = Some f → f_uid f ≤ uid (session w (f_method f))).

End Correlator.
End RequestAux.

(** ** [omnifunc.py]: [omnifunc] *)

Module Omnifunc.
Import Supervisor.

Section Omni.
(** [State], and the entries of a completion list. *)
Context {State Mapping : Type}.

(** [omnifunc], lines 152-160.  [s] is the [State] that
    [state(commit_id=uuid4())] hands back; it is asked for only when
    [findstart] is 0. *)
Definition omnifunc (findstart : Z) (base : PyStr.str) (s : State)
    (w : Loop State) : (Z + list Mapping) * Loop State :=
  if bool_decide (findstart ≠ 0) then (inl (-1), w)
  else (inr [], comp_func s true w).

(** A trigger is known when [comp_func] has queued it. *)
Definition known (ts : list (Trigger (State:=State))) (w : Loop State) : Prop :=
  Forall (λ x, x ∈ ts) (_Q w) ∧
  (∀ x, got w = Some x → x ∈ ts) ∧
  (∀ x, incoming w = Some x → x ∈ ts) ∧
  Forall (λ t, args t ∈ ts) (tasks w).

End Omni.
End Omnifunc.

(** ** [omnifunc.py]: the body of a completion cycle, [c0] *)

Module Cycle.
Import Types Gating.

Section Body.
Context {Item RangeEdit VimComp : Type}.
Abbreviation State := (State Item RangeEdit).
Abbreviation Metric := (Metric Item RangeEdit).

(** What [c0] does to the outside, in order. *)
Inductive Effect :=
| WarnLocked                                   (* line 68 *)
| GetContext (s : State) (manual : bool)       (* lines 70-79 *)
| CommitContext (ctx : Context)                (* line 84: state(context=ctx) *)
| Interrupt                                    (* line 85 *)
| Collect (ctx : Context)                      (* line 87 *)
| Sleep                                        (* line 93: sleep(0) *)
| GetState                                     (* line 95: state() *)
| Trans (pum_width : Z) (ctx : Context) (metrics : list Metric)  (* lines 98-103 *)
| Complete (col : Z) (comps : list VimComp)    (* lines 90, 107, 113 *)
| ResetInsertedPos.                            (* line 115: state(inserted_pos=(-1, -1)) *)

(** [AttributeError]: [ctx.position] on a [ctx] that is [None], line 81
    (line 80 provides for a [ctx] that is not truthy). *)
Inductive Error := AttributeError.

(** What the collaborators answer: whether the lock is held, what
    [context] returns, the setting [fast_close], what the supervisor
    collects, the [State] that [state()] returns after the collection, and
    what [trans] makes of the metrics. *)
Record Env := {
  locked : bool;
  context_of : State → bool → option Context;
  fast_close : bool;
  collect : Context → list Metric;
  state_after : State;
  trans : Z → Context → list Metric → list VimComp;
}.

(** [c0], lines 65-115: the effects in order, and how the block under
    [with_suppress] of line 66 ends: normally, or with the exception that
    reaches [with_suppress].  The two awaitables of [gather] (lines 86-94)
    are logged in the order [gather] is given them. *)
Definition c0 (env : Env) (s : State) (manual : bool)
  : list Effect * (Error + unit) :=
  let warn := if locked env then [WarnLocked] else [] in
  let ctx := context_of env s manual in
  let should :=
    match ctx with
    | Some ctx => _should_cont s (context s) ctx
    | None => false
    end in
  match ctx with
  | None => (warn ++ [GetContext s manual], inl AttributeError)
  | Some ctx =>
      let col := snd (position ctx) in
      if should then
        let metrics := collect env ctx in
        let s' := state_after env in
        (warn ++
         [GetContext s manual; CommitContext ctx; Interrupt; Collect ctx;
          if fast_close env then Complete col [] else Sleep;
          GetState] ++
         (if bool_decide (s_change_id s' = change_id ctx) then
            [Trans (pum_width s') ctx metrics;
             Complete col (trans env (pum_width s') ctx metrics)]
          else []),
         inr tt)
      else
        (warn ++ [GetContext s manual; Complete col []; ResetInsertedPos],
         inr tt)
  end.

End Body.

Arguments Effect : clear implicits.
Arguments Env : clear implicits.
End Cycle.

(** ** [omnifunc.py]: [_comp_done] *)

Module CompDone.
Import Types.

Section Done.
(** [Data]: the [user_data] of a completed item. *)
Context {Item RangeEdit Exn Data : Type}.
Abbreviation State := (State Item RangeEdit).
Abbreviation Metric := (Metric Item RangeEdit).
Abbreviation Extern := (Extern Item).

Record ExtMark := {
  idx : Z;
  begin : NvimPos;
  end_ : NvimPos;
}.

(** What [_comp_done] does to the outside, in order; the effects of
    [_resolve] are passed through. *)
Inductive Effect :=
| GetState                                        (* line 200 *)
| ClearNs                                         (* lines 203-205 *)
| GetLines (lo hi : Z)                            (* line 206 *)
| SetExtmarks (e1 e2 : ExtMark)                   (* line 219 *)
| Resolving (eff : Resolve.Effect Item)           (* line 223 *)
| Edit (s : State) (metric : Metric)              (* lines 233-239 *)
| UpdateState (inserted_pos : NvimPos) (last_edit : Metric) (commit_id : UUID)
                                                  (* lines 241-245 *)
| Cmd (extern : Extern)                           (* line 229 *)
| WarnDelayed.                                    (* line 248 *)

(** [ValueError]: no line to unpack on line 206; or what [_resolve]
    raises. *)
Inductive Error := ValueError | ResolveError (e : Exn).

(** What the collaborators answer: the truthy [user_data] of the event, if
    any; the decoder ([None] for [DecodeError]); the [State]; [stack.metrics]
    when the event arrives and when the edit is due; the lines of the buffer;
    the length of an encoded line; the surroundings of [_resolve] and the
    wrapper task it waits for; what [edit] returns; the uuid drawn on line
    244. *)
Record Env := {
  user_data : option Data;
  decode : Data → option UUID;
  state : State;
  metrics : gmap UUID Metric;
  metrics_later : gmap UUID Metric;
  buf_get_lines : Z → Z → list PyStr.str;
  encode_len : PyStr.str → Z;
  resolve_env : Resolve.Env Item RangeEdit Exn;
  wrapper : Resolve.Coroutine Item RangeEdit Exn → Resolve.Task Item RangeEdit Exn;
  edit : State → Metric → option NvimPos;
  uuid4 : UUID;
}.

(** The metric the event names, if it names one [stack.metrics] knows:
    lines 193-201. *)
Definition selected (env : Env) : option Metric :=
  data ← user_data env; uid' ← decode env data; metrics env !! uid'.

(** [c1] and [c2] of lines 225-248, once [_resolve] has returned
    [new_metric]. *)
Definition apply_edit (env : Env) (s : State) (new_metric : Metric) : list Effect :=
  if bool_decide (is_Some (metrics_later env !! uid (comp new_metric))) then
    let inserted_at := edit env s new_metric in
    let ins_pos := match inserted_at with Some p => p | None => (-1, -1) end in
    [Edit s new_metric; UpdateState ins_pos new_metric (uuid4 env)] ++
    match extern (comp new_metric) with
    | Some (ExternLSP cl it) => [Cmd (ExternLSP cl it)]
    | _ => []
    end
  else [WarnDelayed].

(** [_comp_done], lines 192-252, with the coroutine [cont] it starts. *)
Definition _comp_done (env : Env) : list Effect * (Error + unit) :=
  match user_data env with
  | None => ([], inr tt)
  | Some data =>
      match decode env data with
      | None => ([], inr tt)
      | Some uid' =>
          let s := state env in
          match metrics env !! uid' with
          | None => ([GetState], inr tt)
          | Some metric =>
              let '(row, col) := position (context s) in
              match buf_get_lines env row (row + 1) with
              | [] => ([GetState; ClearNs; GetLines row (row + 1)], inl ValueError)
              | before :: _ =>
                  let e1 := {| idx := 1; begin := (row, 0); end_ := (row, col) |} in
                  let e2 := {| idx := 2; begin := (row, col);
                               end_ := (row, encode_len env before) |} in
                  let sync := [GetState; ClearNs; GetLines row (row + 1);
                               SetExtmarks e1 e2] in
                  match Resolve._resolve_with (wrapper env) metric (resolve_env env) with
                  | (effs, inl e) =>
                      (sync ++ (Resolving <$> effs), inl (ResolveError e))
                  | (effs, inr new_metric) =>
                      (sync ++ (Resolving <$> effs) ++ apply_edit env s new_metric,
                       inr tt)
                  end
              end
          end
      end
  end.

End Done.

Arguments Effect : clear implicits.
Arguments Env : clear implicits.
Arguments ExtMark : clear implicits.
End CompDone.

(** ** [snippets.py]: what [_load_snips] cleans and loads *)

Module Snippets.

Section Plan.
(** The modification times ([float]) with Python's [>] on them, and
    [-inf]. *)
Context {Float : Type} (gt : Float → Float → bool) (neg_inf : Float).

(** [mtime > mtimes.get(path, -inf)] *)
Definition newer (mtimes : gmap string Float) (path : string) (mtime : Float) : bool :=
  gt mtime (default neg_inf (mtimes !! path)).

(** Line 207. *)
Definition stale (mtimes bundled user_compiled : gmap string Float) : gset string :=
  dom mtimes ∖ (dom bundled ∪ dom user_compiled).

(** Lines 208-212: a comprehension over the items of [bundled] and then
    those of [user_compiled]; a later item takes the place of an earlier one
    with the same path. *)
Definition compiled (mtimes bundled user_compiled : gmap string Float)
  : gmap string Float :=
  filter (λ '(path, mtime), newer mtimes path mtime = true) user_compiled ∪
  filter (λ '(path, mtime), newer mtimes path mtime = true) bundled.

End Plan.
End Snippets.

(** ** Concrete data for the scenarios of Part II *)

Module Samples.
Import Types.

Local Open Scope string_scope.

(** *** A channel, its payloads and some schedules *)

Definition channel : string := "lsp_comp".

Definition payload (u : Z) (d : bool) (r : string) : Request._Payload string :=
  {| Request.method := channel; Request.p_uid := u;
     Request.client := Some "pyright"; Request.p_done := d;
     Request.reply := r |}.

Definition item (r : string) : Request.Item string := (Some "pyright", r).

(** One open, one reply marked done, and the consumer resumed twice. *)
Definition done_schedule : list (Request.Event string) :=
  [Request.Open channel; Request.Ingest (payload 0 true "a");
   Request.Advance 0; Request.Advance 0].

(** Two replies accepted, the consumer suspended at its first [yield], and
    then a newer open on the channel. *)
Definition mid_pass_schedule : list (Request.Event string) :=
  [Request.Open channel; Request.Ingest (payload 0 false "a");
   Request.Ingest (payload 0 false "b"); Request.Advance 0;
   Request.Open channel].

Definition mid_pass : Request.World string :=
  fst (Request.run Request.init mid_pass_schedule).

(** A reply, a full pass, a second reply, a second pass. *)
Definition two_pass_schedule : list (Request.Event string) :=
  [Request.Open channel; Request.Ingest (payload 0 false "a");
   Request.Advance 0; Request.Advance 0;
   Request.Ingest (payload 0 false "b");
   Request.Advance 0; Request.Advance 0; Request.Advance 0].

(** The consumer parked in [cond.wait()] with nothing accumulated. *)
Definition waiting : Request.World string :=
  fst (Request.run Request.init [Request.Open channel; Request.Advance 0]).

Definition the_consumer (p : Request.Pc string) : Request.Frame string :=
  {| Request.f_method := channel; Request.f_uid := 0;
     Request.f_done := false; Request.pc := p |}.

(** The same consumer after a newer open. *)
Definition superseded : Request.World string :=
  snd (Request.async_request_open channel waiting).

Definition late_schedule : list (Request.Event string) :=
  [Request.Ingest (payload 0 false "late"); Request.Advance 0;
   Request.Ingest (payload 0 true "later"); Request.Advance 0].

(** Two replies accepted before the consumer looks. *)
Definition two_replies : Request.World string :=
  fst (Request.run Request.init
         [Request.Open channel; Request.Ingest (payload 0 false "a");
          Request.Ingest (payload 0 false "b")]).

(** One reply yielded, the consumer back in [cond.wait()]. *)
Definition one_yielded : Request.World string :=
  fst (Request.run Request.init
         [Request.Open channel; Request.Ingest (payload 0 false "a");
          Request.Advance 0; Request.Advance 0]).

(** *** Contexts and states for the gate *)

Definition ctx (m : bool) (change : UUID) (pos : NvimPos) (line syms : PyStr.str)
  : Context :=
  {| manual := m; change_id := change; commit_id := 0%N; position := pos;
     line_before := line; syms_before := syms |}.

Definition a_metric (e : option (Extern string)) : Metric string string :=
  {| instance := 1%N;
     comp := {| uid := 7%N; secondary_edits := []; extern := e |} |}.

Definition a_state (pos : NvimPos) (e : option (Extern string))
  : State string string :=
  {| s_change_id := 0%N; s_commit_id := 0%N;
     context := ctx false 1%N (0, 0) [] [];
     inserted_pos := pos; last_edit := a_metric e; pum_width := 40 |}.

(** ["x "]: a letter and one space. *)
Definition letter_space : PyStr.str := [120%N; 32%N].

(** *** The resolve flow *)

Definition lsp_extern : Extern string := ExternLSP (Some "pyright") "item".

Definition an_env (c : Resolve.Coroutine string string string)
  : Resolve.Env string string string :=
  {| Resolve.lru := ∅; Resolve.engine := λ _, c |}.

Definition enriched : Completion string string :=
  {| uid := 9%N; secondary_edits := ["import os"]; extern := Some lsp_extern |}.

(** *** The executor *)

Definition failing (_ : unit) : Executor.Outcome nat string unit :=
  Executor.Raises "boom".

Definition answering (_ : unit) : Executor.Outcome nat string unit :=
  Executor.Returns 3%nat.

(** *** A burst of two triggers *)

Definition burst : list (Supervisor.Step nat) :=
  [Supervisor.CompFunc 1%nat true; Supervisor.CompFunc 2%nat false;
   Supervisor.C1Get; Supervisor.C1Set; Supervisor.C2Step;
   Supervisor.C1Get; Supervisor.C1Set; Supervisor.C2Step;
   Supervisor.TaskUnwind 0; Supervisor.C2Step].

(** Three triggers: the second and the third arrive while the task of the
    first is being cancelled. *)
Definition coalescing : list (Supervisor.Step nat) :=
  [Supervisor.CompFunc 1%nat true; Supervisor.C1Get; Supervisor.C1Set;
   Supervisor.C2Step;
   Supervisor.CompFunc 2%nat true; Supervisor.CompFunc 3%nat true;
   Supervisor.C1Get; Supervisor.C1Set; Supervisor.C2Step;
   Supervisor.C1Get; Supervisor.C1Set;
   Supervisor.TaskUnwind 0; Supervisor.C2Step;
   Supervisor.C2Step; Supervisor.TaskUnwind 1; Supervisor.C2Step].

End Samples.

(** ** Concrete data for the further scenarios of Part II *)

Module MoreSamples.
Import Types Samples.

Local Open Scope string_scope.

(** *** The correlator *)

(** The consumer of [Samples.waiting], superseded and resumed. *)
Definition returned_schedule : list (Request.Event string) :=
  [Request.Open channel; Request.Advance 0; Request.Open channel;
   Request.Advance 0].

Definition two_payloads : list (Request._Payload string) :=
  [payload 0 false "a"; payload 0 true "b"].

(** *** The executor *)

Definition fatal (_ : unit) : Executor.Outcome nat string unit :=
  Executor.RaisesBase tt.

Definition job (f : unit → Executor.Outcome nat string unit) (fut : nat)
  : Executor.Job nat string unit :=
  {| Executor.j_A := unit; Executor.j_f := f; Executor.j_args := tt;
     Executor.j_fut := fut |}.

Definition three_pending : list (Executor.Future nat string) :=
  [Executor.PENDING; Executor.PENDING; Executor.PENDING].

(** *** A completion cycle *)

Definition manual_ctx : Context := ctx true 2%N (0, 5) [120%N] [120%N].

Definition same_change_ctx : Context := ctx false 1%N (0, 5) [120%N] [120%N].

Definition fresh_state : State string string :=
  {| s_change_id := 2%N; s_commit_id := 0%N;
     context := manual_ctx; inserted_pos := (-1, -1);
     last_edit := a_metric None; pum_width := 40 |}.

Definition cycle_env (c : Context) : Cycle.Env string string string :=
  {| Cycle.locked := false;
     Cycle.context_of := λ _ _, Some c;
     Cycle.fast_close := true;
     Cycle.collect := λ _, [a_metric None];
     Cycle.state_after := fresh_state;
     Cycle.trans := λ _ _ _, ["candidate"] |}.

(** *** Wrapper tasks *)

(** A task that passes on what its coroutine does. *)
Definition plain_task (c : Resolve.Coroutine string string string)
  : Resolve.Task string string string :=
  match c with
  | Resolve.Replied r => Resolve.TaskResult r
  | Resolve.Failed e => Resolve.TaskException e
  | Resolve.Silent => Resolve.TaskPending
  end.

(** *** A completed item *)

Definition done_env (data : option string) (later : gmap UUID (Metric string string))
  : CompDone.Env string string string string :=
  {| CompDone.user_data := data;
     CompDone.decode := λ _, Some 7%N;
     CompDone.state := a_state (0, 0) None;
     CompDone.metrics := {[ 7%N := a_metric (Some lsp_extern) ]};
     CompDone.metrics_later := later;
     CompDone.buf_get_lines := λ _ _, [[120%N]];
     CompDone.encode_len := λ l, Z.of_nat (length l);
     CompDone.resolve_env := an_env (Resolve.Replied (Some enriched));
     CompDone.wrapper := plain_task;
     CompDone.edit := λ _ _, Some (0, 9);
     CompDone.uuid4 := 11%N |}.

Definition resolved : Metric string string :=
  Resolve.merge (a_metric (Some lsp_extern)) enriched.

(** *** Snippet files *)

(** Modification times: whole seconds, and [-inf]. *)
Inductive float := NegInf | Seconds (t : Z).

Definition gt (a b : float) : bool :=
  match a, b with
  | Seconds x, Seconds y => Z.gtb x y
  | Seconds _, NegInf => true
  | NegInf, _ => false
  end.

Definition on_disk : gmap string float :=
  {[ "coq+snippets+v1.json" := Seconds 5 ]}.

Definition recorded_gone : gmap string float := {[ "gone.json" := Seconds 1 ]}.

(** *** The loop at rest *)

Definition idle_steps : list (Supervisor.Step nat) :=
  [Supervisor.C2Step; Supervisor.TaskFinish 1; Supervisor.C1Get;
   Supervisor.C1Set; Supervisor.TaskUnwind 1].

End MoreSamples.

(* ===================================================================== *)
(** * Part II: properties                                                 *)
(* ===================================================================== *)

(** ** The gating predicate *)

Module GatingFacts.
Import PyStr Types Gating.

(** [rstrip] splits a string into what it returns and a run of
    whitespace. *)
Lemma rstrip_split (s : str) :
  ∃ ws, s = rstrip s ++ ws ∧ Forall (λ c, isspace c = true) ws.
Proof.
  induction s as [|c s [ws [Hs Hws]]]; simpl.
  - exists []. split; [reflexivity | constructor].
  - destruct (rstrip s) as [|r rs] eqn:Hr.
    + destruct (isspace c) eqn:Hc.
      * exists (c :: s). split; [reflexivity|].
        simpl in Hs. subst ws. constructor; assumption.
      * exists s. split; [reflexivity|]. simpl in Hs. subst ws. assumption.
    + exists ws. split; [|assumption]. simpl. f_equal. exact Hs.
Qed.

(** What [rstrip] returns does not end in whitespace. *)
Lemma rstrip_last (s : str) c :
  last (rstrip s) = Some c → isspace c = false.
Proof.
  induction s as [|a s IH]; simpl; [discriminate|].
  destruct (rstrip s) as [|r rs] eqn:Hr.
  - destruct (isspace a) eqn:Ha; simpl; [discriminate|].
    intros [= <-]. exact Ha.
  - intros H. apply IH. exact H.
Qed.

(** A string that does not end in whitespace is left alone, whatever
    whitespace follows it is dropped. *)
Lemma rstrip_app (body ws : str) :
  (∀ c, last body = Some c → isspace c = false) →
  Forall (λ c, isspace c = true) ws →
  rstrip (body ++ ws) = body.
Proof.
  intros Hb Hws.
  assert (Hw : rstrip ws = []).
  { clear Hb. induction Hws as [|c ws Hc _ IH]; simpl; [reflexivity|].
    rewrite IH, Hc. reflexivity. }
  induction body as [|a body IH]; simpl; [exact Hw|].
  destruct body as [|b body].
  - simpl. rewrite Hw. rewrite (Hb a eq_refl). reflexivity.
  - rewrite IH; [reflexivity|]. intros c Hc. apply Hb. exact Hc.
Qed.

Lemma len_app (a b : str) : len (a ++ b) = len a + len b.
Proof. unfold len. rewrite length_app. lia. Qed.

Section Predicate.
Context {Item RangeEdit : Type}.
Implicit Types (state : State Item RangeEdit) (prev cur : Context).

(** The last branch of [_should_cont], lines 53-54, in terms of the text
    before the caret. *)
Lemma strip_branch (line : str) :
  truthy (rstrip line) && (len line - len (rstrip line) <=? 1) = true ↔
  ∃ body ws,
    line = body ++ ws ∧ body ≠ [] ∧
    (∀ c, last body = Some c → isspace c = false) ∧
    Forall (λ c, isspace c = true) ws ∧ (length ws ≤ 1)%nat.
Proof.
  split.
  - intros H. apply andb_true_iff in H as [Ht Hl].
    destruct (rstrip_split line) as [ws [Hs Hws]].
    exists (rstrip line), ws. repeat split; try assumption.
    + destruct (rstrip line); [discriminate | congruence].
    + apply rstrip_last.
    + apply Z.leb_le in Hl. rewrite Hs in Hl at 1.
      rewrite len_app in Hl. unfold len in Hl. lia.
  - intros (body & ws & -> & Hne & Hlast & Hws & Hlen).
    rewrite rstrip_app by assumption.
    apply andb_true_iff. split.
    + destruct body; [congruence | reflexivity].
    + apply Z.leb_le. rewrite len_app. unfold len. lia.
Qed.

(** C6.  [_should_cont state prev cur] is true whenever [cur.manual]
    is; otherwise false when [prev.change_id = cur.change_id];
    otherwise, when the caret is at [state.inserted_pos], true exactly
    when the last inserted edit was a directory of a path; otherwise
    true when [cur.syms_before] is not empty; otherwise true exactly
    when [cur.line_before] is a non-empty text that does not end in
    whitespace, followed by at most one whitespace character; and false
    in every remaining case. *)
Theorem should_cont_cases state prev cur :
  (manual cur = true → _should_cont state prev cur = true) ∧
  (manual cur = false → change_id prev = change_id cur →
   _should_cont state prev cur = false) ∧
  (manual cur = false → change_id prev ≠ change_id cur →
   position cur = inserted_pos state →
   (_should_cont state prev cur = true ↔ continues_path state)) ∧
  (manual cur = false → change_id prev ≠ change_id cur →
   position cur ≠ inserted_pos state → syms_before cur ≠ [] →
   _should_cont state prev cur = true) ∧
  (manual cur = false → change_id prev ≠ change_id cur →
   position cur ≠ inserted_pos state → syms_before cur = [] →
   (_should_cont state prev cur = true ↔
    ∃ body ws,
      line_before cur = body ++ ws ∧ body ≠ [] ∧
      (∀ c, last body = Some c → isspace c = false) ∧
      Forall (λ c, isspace c = true) ws ∧ (length ws ≤ 1)%nat)).
Proof.
  unfold _should_cont, continues_path, neqb.
  split; [|split; [|split; [|split]]].
  - intros ->. reflexivity.
  - intros -> Heq. rewrite bool_decide_eq_true_2 by assumption. reflexivity.
  - intros -> Hne Hpos.
    rewrite bool_decide_eq_false_2 by assumption.
    rewrite bool_decide_eq_true_2 by assumption.
    destruct (extern (comp (last_edit state))) as [[| [|] |]|];
      split; congruence.
  - intros -> Hne Hpos Hsyms.
    rewrite !bool_decide_eq_false_2 by assumption. reflexivity.
  - intros -> Hne Hpos Hsyms.
    rewrite (bool_decide_eq_false_2 _ Hne), (bool_decide_eq_false_2 _ Hpos).
    rewrite bool_decide_eq_true_2 by assumption. simpl.
    apply strip_branch.
Qed.

End Predicate.
End GatingFacts.

(** ** The reply correlator *)

Module RequestFacts.
Import Request.

Section Correlator.
Context {Any : Type}.
Implicit Types (w : World Any) (f : Frame Any) (p : _Payload Any)
  (e : Event Any) (evs : list (Event Any)) (st : gmap string (_Session Any)).

(** *** Reading [_STATE] *)

Lemma getitem_fst m st :
  fst (getitem m st) = default default_session (st !! m).
Proof. unfold getitem. destruct (st !! m); reflexivity. Qed.

Lemma getitem_snd_lookup m st :
  snd (getitem m st) !! m = Some (fst (getitem m st)).
Proof.
  unfold getitem. destruct (st !! m) eqn:E; simpl; [assumption|].
  apply lookup_insert_eq.
Qed.

(** A read changes no session, seen through later reads. *)
Lemma getitem_snd_read m m' st :
  fst (getitem m' (snd (getitem m st))) = fst (getitem m' st).
Proof.
  rewrite !getitem_fst. unfold getitem. destruct (st !! m) eqn:E; simpl.
  - reflexivity.
  - destruct (decide (m = m')) as [->|Hne].
    + rewrite lookup_insert_eq, E. reflexivity.
    + rewrite lookup_insert_ne by assumption. reflexivity.
Qed.

Lemma getitem_insert_eq m s st : fst (getitem m (<[m := s]> st)) = s.
Proof. rewrite getitem_fst, lookup_insert_eq. reflexivity. Qed.

Lemma getitem_insert_ne m m' s st :
  m ≠ m' → fst (getitem m' (<[m := s]> st)) = fst (getitem m' st).
Proof. intros H. rewrite !getitem_fst, lookup_insert_ne by assumption. reflexivity. Qed.

(** *** The generators keep their locals *)

Lemma wake_locals m f :
  f_method (wake m f) = f_method f ∧ f_uid (wake m f) = f_uid f ∧
  f_done (wake m f) = f_done f.
Proof.
  unfold wake. destruct (pc f); try case_bool_decide; simpl; auto.
Qed.

Lemma notify_all_lookup m (fs : list (Frame Any)) c :
  notify_all m fs !! c = wake m <$> fs !! c.
Proof. unfold notify_all. apply list_lookup_fmap. Qed.

Lemma f_uid_notify_all m (fs : list (Frame Any)) :
  f_uid <$> notify_all m fs = f_uid <$> fs.
Proof.
  unfold notify_all. rewrite <- list_fmap_compose. apply list_fmap_ext.
  intros _ f _. apply wake_locals.
Qed.

Lemma f_uid_insert (fs : list (Frame Any)) c f pc' :
  fs !! c = Some f → f_uid <$> <[c := set_pc f pc']> fs = f_uid <$> fs.
Proof.
  intros H. rewrite list_fmap_insert. simpl. apply list_insert_id.
  rewrite list_lookup_fmap, H. reflexivity.
Qed.

(** *** The counter *)

Lemma step_uids w e :
  let w' := fst (step w e) in
  match e with
  | Open m =>
      _UIDS (reg w') = _UIDS (reg w) + 1 ∧
      f_uid <$> frames w' = (f_uid <$> frames w) ++ [_UIDS (reg w)]
  | _ =>
      _UIDS (reg w') = _UIDS (reg w) ∧
      f_uid <$> frames w' = f_uid <$> frames w
  end.
Proof.
  destruct e as [m|p|c]; simpl.
  - split; [reflexivity|]. rewrite fmap_app, f_uid_notify_all. reflexivity.
  - unfold _lsp_notify. destruct (getitem _ _); simpl.
    split; [reflexivity | apply f_uid_notify_all].
  - unfold advance. destruct (frames w !! c) as [f|] eqn:Hf; [|auto].
    destruct (resume _ f) as [[st' pc'] out]; simpl.
    split; [reflexivity | by apply f_uid_insert].
Qed.

Lemma step_counter_mono w e : _UIDS (reg w) ≤ _UIDS (reg (fst (step w e))).
Proof.
  pose proof (step_uids w e) as H. cbv zeta in H.
  destruct e; destruct H as [-> _]; lia.
Qed.

Lemma opened_bounds evs : ∀ w,
  Forall (λ x, _UIDS (reg w) ≤ snd x) (opened w evs) ∧
  StronglySorted Z.lt (snd <$> opened w evs).
Proof.
  induction evs as [|e evs IH]; intros w; simpl.
  - split; constructor.
  - destruct (IH (fst (step w e))) as [Hb Hs].
    pose proof (step_uids w e) as Hu.
    assert (Hb' : Forall (λ x, _UIDS (reg w) ≤ snd x) (opened (fst (step w e)) evs)).
    { eapply Forall_impl; [exact Hb|]. intros x Hx. simpl in Hx.
      pose proof (step_counter_mono w e). lia. }
    destruct e as [m|p|c]; simpl; try (split; assumption).
    split.
    + constructor; [simpl; lia | exact Hb'].
    + constructor; [exact Hs|].
      apply Forall_fmap. eapply Forall_impl; [exact Hb|].
      intros x Hx. simpl in *. lia.
Qed.

Lemma StronglySorted_filter_snd (P : string * Z → Prop) `{∀ x, Decision (P x)}
    (l : list (string * Z)) :
  StronglySorted Z.lt (snd <$> l) → StronglySorted Z.lt (snd <$> filter P l).
Proof.
  induction l as [|x l IH]; simpl; [auto|].
  intros Hs. apply StronglySorted_cons in Hs as [Hx Hl].
  rewrite filter_cons. destruct (decide (P x)); [|auto].
  simpl. constructor; [auto|].
  rewrite Forall_forall in Hx |- *. intros z Hz. apply Hx.
  apply list_elem_of_fmap in Hz as (y & -> & Hy).
  apply list_elem_of_filter in Hy as [_ Hy].
  apply list_elem_of_fmap. eauto.
Qed.

(** C9.  The epochs allocated by the opens of any schedule, on whatever
    channels and from whatever state, are strictly increasing in call
    order; hence so are those of each single channel, and no epoch is
    handed out twice. *)
Theorem epochs_strictly_increasing w evs :
  StronglySorted Z.lt (snd <$> opened w evs) ∧
  (∀ m, StronglySorted Z.lt
          (snd <$> filter (λ x, fst x = m) (opened w evs))) ∧
  NoDup (snd <$> opened w evs).
Proof.
  destruct (opened_bounds evs w) as [_ Hs].
  split; [exact Hs|]. split.
  - intros m. apply StronglySorted_filter_snd. exact Hs.
  - clear -Hs. induction Hs as [|x l _ IH Hx]; constructor; [|exact IH].
    intros Hin. rewrite Forall_forall in Hx. specialize (Hx _ Hin). lia.
Qed.

(** *** What one event does to the sessions *)

Lemma session_open m w m' :
  session (snd (async_request_open m w)) m' =
  if decide (m = m')
  then {| uid := _UIDS (reg w); done := false; acc := [] |}
  else session w m'.
Proof.
  unfold session. simpl. destruct (decide (m = m')) as [->|Hne].
  - apply getitem_insert_eq.
  - by apply getitem_insert_ne.
Qed.

Lemma session_notify p w m' :
  session (_lsp_notify p w) m' =
  if decide (method p = m' ∧ p_uid p = uid (session w (method p)))
  then {| uid := p_uid p; done := p_done p;
          acc := acc (session w (method p)) ++ [(client p, reply p)] |}
  else session w m'.
Proof.
  unfold session, _lsp_notify.
  destruct (getitem (method p) (_STATE (reg w))) as [a st] eqn:E. simpl.
  assert (Ha : a = fst (getitem (method p) (_STATE (reg w)))) by (rewrite E; reflexivity).
  assert (Hst : st = snd (getitem (method p) (_STATE (reg w)))) by (rewrite E; reflexivity).
  clear Ha. case_bool_decide as Hu.
  - destruct (decide (method p = m')) as [<-|Hne].
    + rewrite decide_True by auto. apply getitem_insert_eq.
    + rewrite decide_False by tauto.
      rewrite getitem_insert_ne by assumption.
      rewrite Hst. apply getitem_snd_read.
  - rewrite decide_False by tauto. rewrite Hst. apply getitem_snd_read.
Qed.

Lemma resume_session st f m' :
  fst (getitem m' (fst (fst (resume st f)))) = fst (getitem m' st).
Proof.
  unfold resume. destruct (pc f); simpl; try reflexivity.
  - destruct (getitem (f_method f) st) as [a st'] eqn:E.
    assert (Hst : st' = snd (getitem (f_method f) st)) by (rewrite E; reflexivity).
    repeat case_bool_decide; try destruct (iterate f (acc a)); simpl;
      rewrite Hst; apply getitem_snd_read.
  - destruct (iterate f rest); reflexivity.
Qed.

Lemma session_advance c w m' :
  session (fst (advance c w)) m' = session w m'.
Proof.
  unfold session, advance. destruct (frames w !! c) as [f|]; [|reflexivity].
  pose proof (resume_session (_STATE (reg w)) f m') as H.
  destruct (resume (_STATE (reg w)) f) as [[st' pc'] out]. exact H.
Qed.

(** Only an open moves the epoch of a channel, and only upwards to the
    value of the counter. *)
Lemma session_uid_step w e m' :
  uid (session (fst (step w e)) m') =
  match e with
  | Open m => if decide (m = m') then _UIDS (reg w) else uid (session w m')
  | _ => uid (session w m')
  end.
Proof.
  destruct e as [m|p|c].
  - change (fst (step w (Open m))) with (snd (async_request_open m w)).
    rewrite session_open. destruct (decide (m = m')); reflexivity.
  - change (fst (step w (Ingest p))) with (_lsp_notify p w).
    rewrite session_notify.
    destruct (decide _) as [[<- ->]|]; reflexivity.
  - change (fst (step w (Advance c))) with (fst (advance c w)).
    rewrite session_advance. reflexivity.
Qed.

(** *** What one event does to one generator *)

Lemma step_frame w e c f :
  frames w !! c = Some f →
  frames (fst (step w e)) !! c =
  Some match e with
       | Open m => wake m f
       | Ingest p => wake (method p) f
       | Advance c' =>
           if decide (c' = c)
           then set_pc f (snd (fst (resume (_STATE (reg w)) f)))
           else f
       end.
Proof.
  intros Hf. destruct e as [m|p|c']; simpl.
  - rewrite lookup_app_l.
    2: { unfold notify_all. rewrite length_fmap. by eapply lookup_lt_Some. }
    rewrite notify_all_lookup, Hf. reflexivity.
  - unfold _lsp_notify. destruct (getitem _ _). simpl.
    rewrite notify_all_lookup, Hf. reflexivity.
  - unfold advance. destruct (decide (c' = c)) as [->|Hne].
    + rewrite Hf. destruct (resume _ f) as [[st' pc'] out]. simpl.
      rewrite list_lookup_insert_eq by (by eapply lookup_lt_Some). reflexivity.
    + destruct (frames w !! c') as [f'|]; [|assumption].
      destruct (resume _ f') as [[st' pc'] out]. simpl.
      rewrite list_lookup_insert_ne by assumption. assumption.
Qed.

Lemma step_output w e c it :
  snd (step w e) = Some (c, it) →
  e = Advance c ∧
  ∃ f, frames w !! c = Some f ∧ snd (resume (_STATE (reg w)) f) = Some it.
Proof.
  destruct e as [m|p|c']; simpl; try discriminate.
  unfold advance. destruct (frames w !! c') as [f|] eqn:Hf; [|discriminate].
  destruct (resume _ f) as [[st' pc'] [x|]] eqn:Hr; simpl; [|discriminate].
  intros [= <- <-]. split; [reflexivity|]. exists f.
  split; [assumption | rewrite Hr; reflexivity].
Qed.

Lemma step_locals w e c f :
  frames w !! c = Some f →
  ∃ f', frames (fst (step w e)) !! c = Some f' ∧
        f_method f' = f_method f ∧ f_uid f' = f_uid f ∧ f_done f' = f_done f.
Proof.
  intros Hf. rewrite (step_frame w e c f Hf). eexists. split; [reflexivity|].
  destruct e as [m|p|c']; try apply wake_locals.
  destruct (decide (c' = c)); simpl; auto.
Qed.

Lemma wf_step w e : wf w → wf (fst (step w e)).
Proof.
  unfold wf. intros H. pose proof (step_uids w e) as Hu. cbv zeta in Hu.
  apply (Forall_fmap f_uid (λ u, u < _UIDS (reg (fst (step w e))))).
  apply (Forall_fmap f_uid (λ u, u < _UIDS (reg w))) in H.
  destruct e as [m|p|c]; destruct Hu as [-> ->]; try assumption.
  apply Forall_app. split.
  - eapply Forall_impl; [exact H|]. simpl. intros. lia.
  - constructor; [lia | constructor].
Qed.

Lemma run_app w evs1 evs2 :
  run w (evs1 ++ evs2) =
  (fst (run (fst (run w evs1)) evs2),
   snd (run w evs1) ++ snd (run (fst (run w evs1)) evs2)).
Proof.
  revert w. induction evs1 as [|e evs1 IH]; intros w; simpl.
  - destruct (run w evs2); reflexivity.
  - destruct (step w e) as [w1 o]. rewrite IH.
    destruct (run w1 evs1) as [w2 out]. simpl.
    destruct (run w2 evs2). simpl. rewrite app_assoc. reflexivity.
Qed.

Lemma wf_run evs : ∀ w, wf w → wf (fst (run w evs)).
Proof.
  induction evs as [|e evs IH]; intros w Hw; simpl; [assumption|].
  pose proof (wf_step w e Hw) as H1. destruct (step w e) as [w1 o].
  specialize (IH w1 H1). destruct (run w1 evs). exact IH.
Qed.

Lemma wf_init : wf (Any:=Any) init.
Proof. constructor. Qed.

(** *** Supersession *)

Lemma wake_pc m f :
  pc f ≠ AtWait → wake m f = f.
Proof. unfold wake. destruct (pc f); congruence. Qed.

(** At the head of the loop, with the channel at a later epoch, the
    generator takes the [break] of line 84. *)
Lemma resume_superseded st f :
  pc f = AtLoop → uid (fst (getitem (f_method f) st)) > f_uid f →
  snd (fst (resume st f)) = Returned ∧ snd (resume st f) = None.
Proof.
  unfold resume. intros -> Hgt.
  destruct (getitem (f_method f) st) as [a st']. simpl in Hgt.
  rewrite bool_decide_eq_false_2 by lia.
  rewrite bool_decide_eq_true_2 by assumption. auto.
Qed.

Lemma resume_Returned st f :
  pc f = Returned → resume st f = (st, Returned, None).
Proof. unfold resume. intros ->. reflexivity. Qed.

Lemma wf_lookup w c f : wf w → frames w !! c = Some f → f_uid f < _UIDS (reg w).
Proof.
  unfold wf. rewrite Forall_forall. intros H Hf. apply H.
  eapply list_elem_of_lookup_2. exact Hf.
Qed.

Lemma superseded_step w e c f :
  wf w → frames w !! c = Some f →
  uid (session w (f_method f)) > f_uid f →
  pc f = AtLoop ∨ pc f = Returned →
  ∃ f', frames (fst (step w e)) !! c = Some f' ∧
        f_method f' = f_method f ∧ f_uid f' = f_uid f ∧
        (pc f' = AtLoop ∨ pc f' = Returned) ∧
        (pc f = Returned → pc f' = Returned) ∧
        (e = Advance c → pc f' = Returned) ∧
        uid (session (fst (step w e)) (f_method f)) > f_uid f ∧
        (∀ it, snd (step w e) ≠ Some (c, it)).
Proof.
  intros Hwf Hf Hgt Hpc.
  assert (Hnw : pc f ≠ AtWait) by (destruct Hpc as [-> | ->]; discriminate).
  pose proof (step_frame w e c f Hf) as Hstep.
  pose proof (session_uid_step w e (f_method f)) as Hs.
  pose proof (wf_lookup w c f Hwf Hf) as Hlt.
  eexists. split; [exact Hstep|].
  assert (Hout : ∀ it, snd (step w e) ≠ Some (c, it)).
  { intros it Ho. apply step_output in Ho as (-> & f0 & Hf0 & Hr).
    rewrite Hf in Hf0. injection Hf0 as <-.
    destruct Hpc as [Hpc|Hpc].
    - destruct (resume_superseded (_STATE (reg w)) f Hpc Hgt) as [_ Hn].
      congruence.
    - rewrite (resume_Returned _ f Hpc) in Hr. discriminate. }
  destruct e as [m|p|c'].
  - rewrite (wake_pc m f Hnw). repeat split; auto; try discriminate.
    rewrite Hs. destruct (decide (m = f_method f)); lia.
  - rewrite (wake_pc (method p) f Hnw). repeat split; auto; try discriminate.
    rewrite Hs. exact Hgt.
  - destruct (decide (c' = c)) as [->|Hne].
    + assert (Hr : snd (fst (resume (_STATE (reg w)) f)) = Returned).
      { destruct Hpc as [Hpc|Hpc].
        - apply (resume_superseded _ f Hpc Hgt).
        - rewrite (resume_Returned _ f Hpc). reflexivity. }
      rewrite Hr. rewrite <- Hs in Hgt.
      repeat split; try exact Hgt; try exact Hout; simpl; auto.
    + repeat split; auto; [congruence | rewrite Hs; exact Hgt].
Qed.

Lemma yielded_by_cons c (o : option (nat * Item Any)) out :
  (∀ it, o ≠ Some (c, it)) →
  yielded_by c (emit o ++ out) = yielded_by c out.
Proof.
  intros H. unfold yielded_by. destruct o as [[c' it]|]; simpl; [|reflexivity].
  rewrite filter_cons. simpl. destruct (decide (c' = c)) as [->|]; [|reflexivity].
  exfalso. by apply (H it).
Qed.

Lemma superseded_run evs : ∀ w c f,
  wf w → frames w !! c = Some f →
  uid (session w (f_method f)) > f_uid f →
  pc f = AtLoop ∨ pc f = Returned →
  yielded_by c (snd (run w evs)) = [] ∧
  uid (session (fst (run w evs)) (f_method f)) > f_uid f ∧
  (pc_of (fst (run w evs)) c = Some AtLoop ∨
   pc_of (fst (run w evs)) c = Some Returned) ∧
  (pc f = Returned ∨ (0 < resumptions c evs)%nat →
   pc_of (fst (run w evs)) c = Some Returned).
Proof.
  induction evs as [|e evs IH]; intros w c f Hwf Hf Hgt Hpc.
  - simpl. unfold pc_of. rewrite Hf. simpl. repeat split; auto.
    + destruct Hpc as [-> | ->]; auto.
    + intros [-> | H]; [reflexivity | lia].
  - destruct (superseded_step w e c f Hwf Hf Hgt Hpc)
      as (f' & Hf' & Hm & Hu & Hpc' & Hret & Hadv & Hgt' & Hout).
    pose proof (wf_step w e Hwf) as Hwf'.
    simpl. destruct (step w e) as [w1 o]. simpl in *.
    rewrite <- Hm, <- Hu in Hgt'.
    specialize (IH w1 c f' Hwf' Hf' Hgt' Hpc').
    destruct (run w1 evs) as [w2 out]. simpl in *.
    rewrite Hm, Hu in IH. destruct IH as (Hy & Hs & Hp & Hr).
    rewrite yielded_by_cons by assumption.
    repeat split; auto.
    intros Hcase. apply Hr. destruct Hcase as [Hcase|Hcase]; [auto|].
    destruct e as [m|p|c']; auto.
    destruct (bool_decide (c' = c)) eqn:E.
    + apply bool_decide_eq_true in E as ->. auto.
    + auto.
Qed.

(** C2 (amended).  A consumer that is parked in [cond.wait()] or at the
    head of its loop when a newer open takes over its channel is at the
    head of the loop afterwards, with an epoch below the channel's; and
    a consumer at the head of its loop with an epoch below the channel's
    yields nothing any more, whatever happens next (payloads tagged with
    its own epoch included), keeps an epoch below the channel's, and has
    returned as soon as it has been resumed once. *)
Theorem supersession_abort w c f :
  wf w → frames w !! c = Some f →
  (pc f = AtLoop ∨ pc f = AtWait →
   let w1 := snd (async_request_open (f_method f) w) in
   wf w1 ∧ uid (session w1 (f_method f)) > f_uid f ∧
   frames w1 !! c = Some (set_pc f AtLoop)) ∧
  (pc f = AtLoop → uid (session w (f_method f)) > f_uid f →
   ∀ evs,
     yielded_by c (snd (run w evs)) = [] ∧
     uid (session (fst (run w evs)) (f_method f)) > f_uid f ∧
     (pc_of (fst (run w evs)) c = Some AtLoop ∨
      pc_of (fst (run w evs)) c = Some Returned) ∧
     ((0 < resumptions c evs)%nat →
      pc_of (fst (run w evs)) c = Some Returned)).
Proof.
  intros Hwf Hf. split.
  - intros Hpc. cbv zeta. split; [|split].
    + apply (wf_step w (Open (f_method f)) Hwf).
    + rewrite session_open, decide_True by reflexivity. simpl.
      pose proof (wf_lookup w c f Hwf Hf). lia.
    + change (snd (async_request_open (f_method f) w))
        with (fst (step w (Open (f_method f)))).
      rewrite (step_frame w (Open (f_method f)) c f Hf). f_equal. unfold wake.
      destruct Hpc as [Hpc|Hpc]; rewrite Hpc.
      * destruct f; simpl in *; subst; reflexivity.
      * rewrite bool_decide_eq_true_2 by reflexivity. reflexivity.
  - intros Hpc Hgt evs.
    destruct (superseded_run evs w c f Hwf Hf Hgt (or_introl Hpc))
      as (Hy & Hs & Hp & Hr).
    repeat split; auto.
Qed.

(** *** Where yielded items come from *)

Lemma Accepted_mono (w0 : World Any) evs more m u it :
  Accepted w0 evs m u it → Accepted w0 (evs ++ more) m u it.
Proof.
  intros (pre & p & post & -> & H). exists pre, p, (post ++ more).
  split; [|exact H]. rewrite <- app_assoc. reflexivity.
Qed.

Lemma run_snoc w evs e :
  fst (run w (evs ++ [e])) = fst (step (fst (run w evs)) e) ∧
  snd (run w (evs ++ [e])) =
  snd (run w evs) ++ emit (snd (step (fst (run w evs)) e)).
Proof.
  rewrite run_app. simpl. destruct (step (fst (run w evs)) e) as [w1 o].
  simpl. rewrite app_nil_r. auto.
Qed.

Lemma iterate_items f (items : list (Item Any)) it :
  snd (iterate f items) = Some it ∨
  (∃ rest, fst (iterate f items) = AtYield rest ∧ it ∈ rest) →
  it ∈ items.
Proof.
  unfold iterate. destruct items as [|x items]; simpl.
  - destruct (f_done f); simpl; intros [H | (rest & H & _)]; discriminate.
  - intros [[= ->] | (rest & [= ->] & H)].
    + apply list_elem_of_here.
    + by apply list_elem_of_further.
Qed.

Lemma resume_items st f it :
  snd (resume st f) = Some it ∨
  (∃ rest, snd (fst (resume st f)) = AtYield rest ∧ it ∈ rest) →
  (pc f = AtLoop ∧ uid (fst (getitem (f_method f) st)) = f_uid f ∧
   it ∈ acc (fst (getitem (f_method f) st))) ∨
  (∃ rest0, pc f = AtYield rest0 ∧ it ∈ rest0).
Proof.
  unfold resume. destruct (pc f) as [|rest0| |] eqn:Hpc.
  - destruct (getitem (f_method f) st) as [a st']. simpl.
    case_bool_decide as Hu.
    + intros H. left. split; [reflexivity|]. split; [assumption|].
      apply (iterate_items f). destruct (iterate f (acc a)). exact H.
    + case_bool_decide as Hv; simpl; intros [H | (rest & H & _)]; discriminate.
  - intros H. right. exists rest0. split; [reflexivity|].
    apply (iterate_items f). destruct (iterate f rest0). exact H.
  - simpl. intros [H | (rest & H & _)]; discriminate.
  - simpl. intros [H | (rest & H & _)]; discriminate.
Qed.

Lemma wake_AtYield m f rest :
  pc (wake m f) = AtYield rest → wake m f = f.
Proof.
  unfold wake. destruct (pc f) eqn:E; try reflexivity.
  case_bool_decide; [discriminate | reflexivity].
Qed.

Lemma length_frames_step w e :
  length (frames (fst (step w e))) =
  match e with
  | Open _ => S (length (frames w))
  | _ => length (frames w)
  end.
Proof.
  destruct e as [m|p|c0]; simpl.
  - rewrite length_app. unfold notify_all. rewrite length_fmap. simpl. lia.
  - unfold _lsp_notify. destruct (getitem _ _). simpl.
    unfold notify_all. apply length_fmap.
  - unfold advance. destruct (frames w !! c0) as [f|]; [|reflexivity].
    destruct (resume _ f) as [[st' pc'] out]. simpl. apply length_insert.
Qed.

Lemma step_frame_inv w e c f' :
  frames (fst (step w e)) !! c = Some f' →
  (∃ f, frames w !! c = Some f) ∨ (pc f' = AtLoop ∧ f_done f' = false).
Proof.
  intros H. destruct (frames w !! c) as [f|] eqn:Hf; [eauto|]. right.
  apply lookup_ge_None in Hf.
  pose proof (lookup_lt_Some _ _ _ H) as Hlt.
  rewrite length_frames_step in Hlt.
  destruct e as [m|p|c0]; try lia.
  simpl in H. rewrite lookup_app_r in H.
  2: { unfold notify_all. rewrite length_fmap. exact Hf. }
  unfold notify_all in H. rewrite length_fmap in H.
  assert (c = length (frames w)) as -> by lia.
  rewrite Nat.sub_diag in H. simpl in H. injection H as <-. auto.
Qed.

Lemma provenance_step evs w e :
  w = fst (run init evs) →
  provenance init evs w →
  provenance init (evs ++ [e]) (fst (step w e)) ∧
  ∀ c it, snd (step w e) = Some (c, it) →
          ∃ f, frames w !! c = Some f ∧
               Accepted init (evs ++ [e]) (f_method f) (f_uid f) it.
Proof.
  intros Hw [Hacc Hrest].
  assert (Hsrc : ∀ c f it,
             frames w !! c = Some f →
             (snd (resume (_STATE (reg w)) f) = Some it ∨
              ∃ rest, snd (fst (resume (_STATE (reg w)) f)) = AtYield rest ∧
                      it ∈ rest) →
             Accepted init (evs ++ [e]) (f_method f) (f_uid f) it).
  { intros c f it Hf H. apply Accepted_mono.
    apply resume_items in H as [(Hpc & Hu & Hin) | (rest0 & Hpc & Hin)].
    - rewrite <- Hu. apply (Hacc (f_method f) it Hin).
    - apply (Hrest c f rest0 it Hf Hpc Hin). }
  split; [split|].
  - intros m it. destruct e as [m0|p|c0].
    + change (fst (step w (Open m0))) with (snd (async_request_open m0 w)).
      rewrite session_open. destruct (decide (m0 = m)); simpl.
      * intros H. by apply elem_of_nil in H.
      * intros H. apply Accepted_mono. by apply Hacc.
    + change (fst (step w (Ingest p))) with (_lsp_notify p w).
      rewrite session_notify.
      destruct (decide _) as [[<- Hu]|_]; simpl.
      * intros H. apply elem_of_app in H as [H|H].
        -- apply Accepted_mono. rewrite Hu. by apply Hacc.
        -- apply list_elem_of_singleton in H as ->.
           exists evs, p, []. repeat split; auto. rewrite <- Hw. symmetry. exact Hu.
      * intros H. apply Accepted_mono. by apply Hacc.
    + change (fst (step w (Advance c0))) with (fst (advance c0 w)).
      rewrite session_advance. intros H. apply Accepted_mono. by apply Hacc.
  - intros c f' rest it Hf' Hpc Hin.
    destruct (step_frame_inv w e c f' Hf') as [[f Hf] | [Hl _]]; [|congruence].
    rewrite (step_frame w e c f Hf) in Hf'. injection Hf' as Hf'.
    destruct e as [m0|p|c0].
    + rewrite <- Hf' in Hpc. pose proof (wake_AtYield _ _ _ Hpc) as Hwk.
      rewrite Hwk in *. subst f'.
      apply Accepted_mono. by eapply Hrest.
    + rewrite <- Hf' in Hpc. pose proof (wake_AtYield _ _ _ Hpc) as Hwk.
      rewrite Hwk in *. subst f'.
      apply Accepted_mono. by eapply Hrest.
    + destruct (decide (c0 = c)) as [->|Hne].
      * subst f'. simpl in *. apply (Hsrc c f it Hf). right. eauto.
      * subst f'. apply Accepted_mono. by eapply Hrest.
  - intros c it Ho. apply step_output in Ho as (-> & f & Hf & Hr).
    exists f. split; [assumption|]. apply (Hsrc c f it Hf). left. exact Hr.
Qed.

Lemma provenance_run evs :
  provenance init evs (fst (run (Any:=Any) init evs)) ∧
  ∀ c it, (c, it) ∈ snd (run (Any:=Any) init evs) →
          ∃ f, frames (fst (run init evs)) !! c = Some f ∧
               Accepted init evs (f_method f) (f_uid f) it.
Proof.
  induction evs as [|e evs [IHp IHo]] using rev_ind.
  - simpl. split; [split|].
    + intros m it H. by apply elem_of_nil in H.
    + intros c f rest it H. discriminate.
    + intros c it H. by apply elem_of_nil in H.
  - destruct (run_snoc init evs e) as [-> ->].
    destruct (provenance_step evs _ e eq_refl IHp) as [Hp Ho].
    split; [exact Hp|].
    intros c it H. apply elem_of_app in H as [H|H].
    + destruct (IHo c it H) as (f & Hf & Ha).
      destruct (step_locals _ e c f Hf) as (f' & Hf' & Hm & Hu & _).
      exists f'. split; [exact Hf'|]. rewrite Hm, Hu.
      by apply Accepted_mono.
    + destruct (snd (step (fst (run init evs)) e)) as [[c' it']|] eqn:E;
        simpl in H; [|by apply elem_of_nil in H].
      apply list_elem_of_singleton in H. injection H as -> ->.
      destruct (Ho c' it' eq_refl) as (f & Hf & Ha).
      destruct (step_locals _ e c' f Hf) as (f' & Hf' & Hm & Hu & _).
      exists f'. split; [exact Hf'|]. rewrite Hm, Hu. exact Ha.
Qed.

(** C3.  A payload whose uid differs from the uid of its channel's
    session leaves every session as it was (uid, done flag and
    accumulated sequence); whatever a consumer yields, in any schedule,
    was carried by a payload ingested while the channel's session had the
    payload's uid, which is the consumer's own, so a reply tagged with an
    older epoch is never yielded; and a payload whose uid matches puts
    (client, reply) at the end of the accumulated sequence, records its
    done flag, and moves every consumer parked in [cond.wait()] on the
    channel to the head of its loop. *)
Theorem lsp_notify_accepts_current_epoch_only :
  (∀ w p, p_uid p ≠ uid (session w (method p)) →
          ∀ m, session (_lsp_notify p w) m = session w m) ∧
  (∀ evs c it,
     (c, it) ∈ snd (run (Any:=Any) init evs) →
     ∃ f, frames (fst (run init evs)) !! c = Some f ∧
          Accepted init evs (f_method f) (f_uid f) it) ∧
  (∀ w p, p_uid p = uid (session w (method p)) →
          session (_lsp_notify p w) (method p) =
          {| uid := p_uid p; done := p_done p;
             acc := acc (session w (method p)) ++ [(client p, reply p)] |} ∧
          ∀ c f, frames w !! c = Some f → f_method f = method p →
                 pc f = AtWait →
                 frames (_lsp_notify p w) !! c = Some (set_pc f AtLoop)).
Proof.
  split; [|split].
  - intros w p Hne m. rewrite session_notify.
    rewrite decide_False by tauto. reflexivity.
  - intros evs. apply provenance_run.
  - intros w p Heq. split.
    + rewrite session_notify. rewrite decide_True by auto. reflexivity.
    + intros c f Hf Hm Hpc.
      change (_lsp_notify p w) with (fst (step w (Ingest p))).
      rewrite (step_frame w (Ingest p) c f Hf). f_equal.
      unfold wake. rewrite Hpc, bool_decide_eq_true_2 by assumption.
      reflexivity.
Qed.

(** *** One pass over a snapshot *)

Lemma yielded_by_here c (it : Item Any) out :
  yielded_by c ((c, it) :: out) = it :: yielded_by c out.
Proof.
  unfold yielded_by. rewrite filter_cons. simpl.
  rewrite decide_True by reflexivity. reflexivity.
Qed.

Lemma resumptions_other c e evs :
  e ≠ Advance c → resumptions c (e :: evs) = resumptions c evs.
Proof.
  intros H. destruct e as [m|p|c']; simpl; try reflexivity.
  rewrite bool_decide_eq_false_2; [reflexivity | congruence].
Qed.

Lemma resumptions_here c evs :
  resumptions (Any:=Any) c (Advance c :: evs) = S (resumptions c evs).
Proof. simpl. rewrite bool_decide_eq_true_2 by reflexivity. reflexivity. Qed.

Lemma advance_dec e c : {e = Advance c} + {e ≠ Advance c}.
Proof.
  destruct e as [m|p|c']; try (right; discriminate).
  destruct (decide (c' = c)) as [->|Hne]; [left; reflexivity|].
  right. congruence.
Qed.

Lemma step_not_advance_output w e c :
  e ≠ Advance c → ∀ it, snd (step w e) ≠ Some (c, it).
Proof. intros H it Ho. apply step_output in Ho as [-> _]. congruence. Qed.

Lemma no_resume_no_yield evs : ∀ w c,
  resumptions c evs = 0%nat → yielded_by c (snd (run w evs)) = [].
Proof.
  induction evs as [|e evs IH]; intros w c Hn; simpl; [reflexivity|].
  assert (Hne : e ≠ Advance c).
  { intros ->. rewrite resumptions_here in Hn. discriminate. }
  rewrite resumptions_other in Hn by assumption.
  pose proof (step_not_advance_output w e c Hne) as Ho.
  destruct (step w e) as [w1 o]. specialize (IH w1 c Hn).
  destruct (run w1 evs) as [w2 out]. simpl in *.
  rewrite yielded_by_cons by assumption. exact IH.
Qed.

Lemma advance_frame w c f :
  frames w !! c = Some f →
  snd (advance c w) = option_map (pair c) (snd (resume (_STATE (reg w)) f)) ∧
  frames (fst (advance c w)) !! c =
  Some (set_pc f (snd (fst (resume (_STATE (reg w)) f)))).
Proof.
  intros Hf. unfold advance. rewrite Hf.
  destruct (resume _ f) as [[st' pc'] out]. simpl. split; [reflexivity|].
  apply list_lookup_insert_eq. by eapply lookup_lt_Some.
Qed.

Lemma yield_run evs : ∀ w c f rest,
  frames w !! c = Some f → pc f = AtYield rest →
  (resumptions c evs ≤ S (length rest))%nat →
  yielded_by c (snd (run w evs)) = take (resumptions c evs) rest.
Proof.
  induction evs as [|e evs IH]; intros w c f rest Hf Hpc Hn.
  - reflexivity.
  - destruct (advance_dec e c) as [->|Hne].
    + rewrite resumptions_here in *. simpl.
      destruct (advance_frame w c f Hf) as [Ho Hf1].
      destruct (advance c w) as [w1 o]. simpl in Ho, Hf1. subst o.
      unfold resume in *. rewrite Hpc in *. unfold iterate in *.
      destruct rest as [|x rest]; simpl in *.
      * pose proof (no_resume_no_yield evs w1 c ltac:(lia)) as Hy.
        destruct (f_done f); simpl in *; destruct (run w1 evs); exact Hy.
      * specialize (IH w1 c _ rest Hf1 eq_refl ltac:(lia)).
        destruct (run w1 evs) as [w2 out]. simpl in *.
        rewrite (yielded_by_here c x out). f_equal. exact IH.
    + rewrite resumptions_other in * by assumption. simpl.
      pose proof (step_not_advance_output w e c Hne) as Ho.
      pose proof (step_frame w e c f Hf) as Hf1.
      assert (Hsame : frames (fst (step w e)) !! c = Some f).
      { rewrite Hf1. f_equal. destruct e as [m|p|c'].
        - apply wake_pc. congruence.
        - apply wake_pc. congruence.
        - rewrite decide_False; [reflexivity | congruence]. }
      destruct (step w e) as [w1 o]. simpl in *.
      specialize (IH w1 c f rest Hsame Hpc Hn).
      destruct (run w1 evs) as [w2 out]. simpl in *.
      rewrite yielded_by_cons by assumption. exact IH.
Qed.

Lemma run_Ingest w p evs :
  snd (run w (Ingest p :: evs)) = snd (run (_lsp_notify p w) evs).
Proof. simpl. destruct (run (_lsp_notify p w) evs). reflexivity. Qed.

Lemma pass_from_loop w c f evs :
  frames w !! c = Some f → pc f = AtLoop →
  uid (session w (f_method f)) = f_uid f →
  (resumptions c evs ≤ length (acc (session w (f_method f))))%nat →
  yielded_by c (snd (run w (Advance c :: evs))) =
  take (S (resumptions c evs)) (acc (session w (f_method f))).
Proof.
  unfold session. intros Hf Hpc Hu Hn. simpl.
  destruct (advance_frame w c f Hf) as [Ho Hf1].
  destruct (advance c w) as [w1 o]. simpl in Ho, Hf1. subst o.
  unfold resume in *. rewrite Hpc in *.
  destruct (getitem (f_method f) (_STATE (reg w))) as [a st']. simpl in *.
  rewrite bool_decide_eq_true_2 in * by assumption.
  unfold iterate in *. destruct (acc a) as [|x rest]; simpl in *.
  - pose proof (no_resume_no_yield evs w1 c ltac:(lia)) as Hy.
    destruct (f_done f); simpl in *; destruct (run w1 evs); exact Hy.
  - pose proof (yield_run evs w1 c _ rest Hf1 eq_refl ltac:(lia)) as Hy.
    destruct (run w1 evs) as [w2 out]. simpl in *.
    rewrite (yielded_by_here c x out). f_equal. exact Hy.
Qed.

(** C5 (amended).  A pass of a consumer over its channel's session (from
    the inspection of line 77, with the session at the consumer's epoch,
    until the [for] loop is exhausted) yields the accumulated sequence as
    it stood at the inspection, in order and each item once, whatever is
    ingested or opened in between; and a consumer woken from
    [cond.wait()] by a payload of its epoch makes a new pass from the
    beginning: it yields again everything accumulated before, then the
    new item. *)
Theorem pass_yields_whole_snapshot w c f :
  frames w !! c = Some f →
  uid (session w (f_method f)) = f_uid f →
  (pc f = AtLoop →
   ∀ evs, (resumptions c evs ≤ length (acc (session w (f_method f))))%nat →
          yielded_by c (snd (run w (Advance c :: evs))) =
          take (S (resumptions c evs)) (acc (session w (f_method f)))) ∧
  (pc f = AtWait →
   ∀ p evs, method p = f_method f → p_uid p = f_uid f →
            resumptions c evs = length (acc (session w (f_method f))) →
            yielded_by c (snd (run w (Ingest p :: Advance c :: evs))) =
            acc (session w (f_method f)) ++ [(client p, reply p)]).
Proof.
  intros Hf Hu. split.
  - intros Hpc evs Hn. by apply pass_from_loop.
  - intros Hpc p evs Hm Hpu Hn.
    rewrite run_Ingest.
    pose proof (step_frame w (Ingest p) c f Hf) as Hf1.
    cbv beta iota in Hf1.
    change (fst (step w (Ingest p))) with (_lsp_notify p w) in Hf1.
    assert (Hw : wake (method p) f = set_pc f AtLoop).
    { unfold wake. rewrite Hpc, bool_decide_eq_true_2 by congruence. reflexivity. }
    rewrite Hw in Hf1.
    pose proof (session_notify p w (f_method f)) as Hs.
    rewrite decide_True in Hs by (rewrite Hm; split; congruence).
    pose proof (pass_from_loop (_lsp_notify p w) c _ evs Hf1 eq_refl) as Hpass.
    change (f_method (set_pc f AtLoop)) with (f_method f) in Hpass.
    change (f_uid (set_pc f AtLoop)) with (f_uid f) in Hpass.
    rewrite Hs in Hpass. cbn [uid acc] in Hpass. rewrite Hm in Hpass.
    rewrite length_app in Hpass. cbn [length] in Hpass.
    rewrite Hpass by (assumption || lia).
    rewrite Hn. apply take_ge. rewrite length_app. simpl. lia.
Qed.

(** *** Leaving the loop *)

Lemma resume_to_Returned st f :
  snd (fst (resume st f)) = Returned → f_done f = false →
  (pc f = AtLoop ∧ uid (fst (getitem (f_method f) st)) > f_uid f) ∨
  pc f = Returned.
Proof.
  unfold resume, iterate. intros H Hd. rewrite Hd in H.
  destruct (pc f) as [|rest| |].
  - destruct (getitem (f_method f) st) as [a st']. simpl.
    case_bool_decide as H1.
    + destruct (acc a); discriminate.
    + case_bool_decide as H2; [auto | discriminate].
  - destruct rest; discriminate.
  - discriminate.
  - auto.
Qed.

(** A generator has left its loop only if a later epoch has taken over
    its channel: the local [done] is never anything but [False], so the
    [break] of line 82 is never taken. *)
Lemma returned_only_when_superseded evs c f :
  frames (fst (run (Any:=Any) init evs)) !! c = Some f →
  f_done f = false ∧
  (pc f = Returned →
   uid (session (fst (run init evs)) (f_method f)) > f_uid f).
Proof.
  revert c f. induction evs as [|e evs IH] using rev_ind; intros c f' Hf'.
  - discriminate.
  - destruct (run_snoc init evs e) as [Hw _]. rewrite Hw in *. clear Hw.
    set (w := fst (run init evs)) in *.
    assert (Hwf : wf w) by apply wf_run, wf_init.
    destruct (step_frame_inv w e c f' Hf') as [[f Hf] | [Hl Hd]].
    2: { split; [assumption | congruence]. }
    destruct (IH c f Hf) as [Hd Hret].
    destruct (step_locals w e c f Hf) as (f1 & Hf1 & Hm & Hu & Hd1).
    rewrite Hf' in Hf1. injection Hf1 as <-.
    split; [congruence|]. intros Hpc. rewrite Hm, Hu.
    pose proof (wf_lookup w c f Hwf Hf) as Hlt.
    assert (Hold : uid (session w (f_method f)) > f_uid f).
    { rewrite (step_frame w e c f Hf) in Hf'. injection Hf' as Hf'.
      destruct e as [m|p|c'].
      - apply Hret. rewrite <- Hf' in Hpc. unfold wake in Hpc.
        destruct (pc f) eqn:E; try case_bool_decide; simpl in Hpc; congruence.
      - apply Hret. rewrite <- Hf' in Hpc. unfold wake in Hpc.
        destruct (pc f) eqn:E; try case_bool_decide; simpl in Hpc; congruence.
      - destruct (decide (c' = c)) as [->|Hne]; [|apply Hret; congruence].
        rewrite <- Hf' in Hpc. simpl in Hpc.
        apply resume_to_Returned in Hpc as [[_ Hgt] | Hr]; auto. }
    rewrite session_uid_step. destruct e as [m|p|c']; auto.
    destruct (decide (m = f_method f)); [lia | assumption].
Qed.

End Correlator.
End RequestFacts.

(** ** The serial executor *)

Module ExecutorFacts.
Import Executor.

Section Exec.
Context {T Exn BaseExn : Type}.
Abbreviation Outcome := (Outcome T Exn BaseExn).
Abbreviation Future := (Future T Exn).
Abbreviation Job := (Job T Exn BaseExn).
Abbreviation Executor := (Executor T Exn BaseExn).

Lemma cont_pending {A} (f : A → Outcome) args :
  safe (f args) → cont f args PENDING = inl (settled (f args)).
Proof. unfold cont, settled. destruct (f args); simpl; tauto. Qed.

Lemma cont_safe {A} (f : A → Outcome) args (fut : Future) :
  safe (f args) → ∃ fut', cont f args fut = inl fut'.
Proof. unfold cont. destruct (f args); simpl; [eauto | eauto | tauto]. Qed.





End Exec.
End ExecutorFacts.

(** ** The resolve flow *)

Module ResolveFacts.
Import Types Resolve.

Section Flow.
Context {Item RangeEdit Exn : Type}.
Implicit Types (metric : Metric Item RangeEdit) (env : Env Item RangeEdit Exn).

(** C10.  For a metric whose extern is not an [ExternLSP], [_resolve]
    returns the metric itself and does nothing on the way: no cache
    lookup, no request, no wait. *)
Theorem resolve_skips_non_lsp metric env :
  isinstance_ExternLSP (extern (comp metric)) = false →
  _resolve metric env = ([], inr metric).
Proof.
  unfold _resolve, _resolve_with, isinstance_ExternLSP.
  destruct (extern (comp metric)) as [[cl it|d|]|]; try discriminate;
    reflexivity.
Qed.

(** [_resolve] has no handler of its own: it is the wrapper task that
    keeps a failure from its caller.  Over a task that carries the
    exception of its coroutine, line 178 raises it again. *)
Lemma resolve_reraises_task_exception
    (go' : Coroutine Item RangeEdit Exn → Task Item RangeEdit Exn)
    metric env cl it e :
  extern (comp metric) = Some (ExternLSP cl it) →
  lru env !! uid (comp metric) = None →
  go' (engine env (ExternLSP cl it)) = TaskException e →
  snd (_resolve_with go' metric env) = inl e.
Proof.
  unfold _resolve_with. intros -> Hmiss Hgo.
  unfold bind, perform, ret, raise. simpl. rewrite Hmiss, Hgo. reflexivity.
Qed.

(** C7.  For a metric with an [ExternLSP] whose uid is not in the cache:
    if the request has produced nothing by the deadline, [_resolve]
    cancels the pending task and returns the metric as it was; if the
    request failed, [_resolve] returns the metric as it was and raises
    nothing; if a completion came back, [_resolve] returns the metric
    with that completion's [secondary_edits]. *)
Theorem resolve_falls_back metric env cl it :
  extern (comp metric) = Some (ExternLSP cl it) →
  lru env !! uid (comp metric) = None →
  (engine env (ExternLSP cl it) = Silent →
   _resolve metric env =
   ([LruGet (uid (comp metric)); Go (ExternLSP cl it); Wait; Cancel 1],
    inr metric)) ∧
  (∀ e, engine env (ExternLSP cl it) = Failed e →
        snd (_resolve metric env) = inr metric) ∧
  (∀ c, engine env (ExternLSP cl it) = Replied (Some c) →
        snd (_resolve metric env) = inr (merge metric c)).
Proof.
  unfold _resolve, _resolve_with. intros -> Hmiss.
  unfold bind, perform, ret. simpl. rewrite Hmiss.
  split; [|split].
  - intros ->. reflexivity.
  - intros e ->. reflexivity.
  - intros c ->. reflexivity.
Qed.

End Flow.
End ResolveFacts.

(** ** The supervisor loop *)

Module SupervisorFacts.
Import Supervisor.

Section Loop.
Context {State : Type}.
Implicit Types (w : Loop State) (e : Step State) (t : Task State)
  (steps : list (Step State)).

Lemma run_steps_app w steps1 steps2 :
  run w (steps1 ++ steps2) = run (run w steps1) steps2.
Proof. apply fold_left_app. Qed.

Lemma alive_request_cancel t : alive (request_cancel t) = alive t.
Proof.
  unfold alive, is_done, request_cancel.
  destruct (status t) eqn:E; simpl; rewrite ?E; reflexivity.
Qed.

Lemma alive_unwind t : alive (unwind t) = true → alive t = true.
Proof.
  unfold alive, is_done, unwind.
  destruct (status t) eqn:E; simpl; rewrite ?E; auto.
Qed.

Lemma alive_finish t : alive (finish t) = true → alive t = true.
Proof.
  unfold alive, is_done, finish.
  destruct (status t) eqn:E; simpl; rewrite ?E; auto.
Qed.

Lemma lookup_alter_Some (f : Task State → Task State) (l : list (Task State)) k k' t' :
  alter f k l !! k' = Some t' →
  ∃ t, l !! k' = Some t ∧ (t' = t ∨ (k' = k ∧ t' = f t)).
Proof.
  destruct (decide (k = k')) as [->|Hne].
  - rewrite list_lookup_alter_eq. destruct (l !! k') as [t|]; simpl; [|discriminate].
    intros [= <-]. eauto.
  - rewrite list_lookup_alter_ne by assumption. eauto.
Qed.

Lemma Inv_init : Inv (State:=State) init.
Proof.
  split; simpl; try discriminate; auto.
Qed.

(** The invariant survives a change of the tasks that keeps the done
    ones done, the untouched ones untouched, and the status of the
    current one within what [c2] expects. *)
Lemma Inv_on_task (f : Task State → Task State) k w :
  (∀ t, alive (f t) = true → alive t = true) →
  (∀ t, args (f t) = args t) →
  (∀ t, status t ≠ Running → status (f t) ≠ Running) →
  (∀ t, status t = Running ∨ status t = Finished →
        status (f t) = Running ∨ status (f t) = Finished) →
  Inv w → Inv (on_task f k w).
Proof.
  intros Ha Hargs Hnr Hrf [I1 I2 I3 I4 I5 I6 I7].
  split; simpl.
  - intros k' t' Hl Hal. apply lookup_alter_Some in Hl as (t & Hl & [->|[-> ->]]).
    + eauto.
    + apply (I1 k t Hl). auto.
  - intros k' Hk. rewrite length_alter. auto.
  - intros Hn. rewrite (I3 Hn). reflexivity.
  - exact I4.
  - intros Hc. destruct (I5 Hc) as (k0 & t & Hk & Hl & Hs).
    destruct (decide (k = k0)) as [->|Hne].
    + exists k0, (f t). rewrite list_lookup_alter_eq, Hl. simpl. auto.
    + exists k0, t. rewrite list_lookup_alter_ne by assumption. auto.
  - intros Hc k0 t' Hk Hl.
    apply lookup_alter_Some in Hl as (t & Hl & [->|[-> ->]]); eauto.
  - intros He Hc x Hx. destruct (I7 He Hc x Hx) as (k0 & t & Hk & Hl & Hargs').
    destruct (decide (k = k0)) as [->|Hne].
    + exists k0, (f t). rewrite list_lookup_alter_eq, Hl. simpl.
      rewrite Hargs. auto.
    + exists k0, t. rewrite list_lookup_alter_ne by assumption. auto.
Qed.

(** Creating the next task once every task is done. *)
Lemma Inv_create w x ev :
  Inv w → incoming w = Some x →
  (∀ k t, tasks w !! k = Some t → is_done t = true) →
  Inv {| _Q := _Q w; got := got w; incoming := incoming w; event := ev;
         task := Some (length (tasks w));
         tasks := tasks w ++ [ {| args := x; status := Running |} ];
         c2 := AtEvent |}.
Proof.
  intros [I1 I2 I3 I4 I5 I6 I7] Hx Hdone. split; simpl.
  - intros k t Hl Hal. apply lookup_snoc_Some in Hl as [[Hlt Hl]|[-> _]].
    + specialize (Hdone k t Hl). unfold alive in Hal. rewrite Hdone in Hal.
      discriminate.
    + reflexivity.
  - intros k [= <-]. rewrite length_app. simpl. lia.
  - discriminate.
  - congruence.
  - discriminate.
  - intros _ k t [= <-] Hl.
    rewrite lookup_app_r, Nat.sub_diag in Hl by lia. injection Hl as <-. auto.
  - intros _ _ y Hy. exists (length (tasks w)), {| args := x; status := Running |}.
    split; [reflexivity|]. split; [|simpl; congruence].
    rewrite lookup_app_r, Nat.sub_diag by lia. reflexivity.
Qed.

Lemma all_done_but_current w k t :
  Inv w → task w = Some k → tasks w !! k = Some t → is_done t = true →
  ∀ k' t', tasks w !! k' = Some t' → is_done t' = true.
Proof.
  intros I Hk Hl Hd k' t' Hl'.
  destruct (is_done t') eqn:E; [reflexivity|].
  assert (Hal : alive t' = true) by (unfold alive; rewrite E; reflexivity).
  pose proof (inv_single w I k' t' Hl' Hal) as Hk'.
  rewrite Hk in Hk'. injection Hk' as ->. congruence.
Qed.

Lemma Inv_c2_step w : Inv w → Inv (c2_step w).
Proof.
  intros I. unfold c2_step. destruct (c2 w) eqn:Hc.
  - destruct (event w) eqn:He; [|exact I].
    destruct (task w) as [k|] eqn:Hk.
    + split; simpl.
      * intros k' t' Hl Hal. rewrite <- Hk.
        apply lookup_alter_Some in Hl as (t & Hl & [->|[-> ->]]).
        -- by apply (inv_single w I k' t).
        -- rewrite alive_request_cancel in Hal. by apply (inv_single w I k t).
      * intros k' [= <-]. rewrite length_alter. by apply (inv_bound w I).
      * discriminate.
      * intros Hi. rewrite <- Hk. by apply (inv_incoming w I).
      * intros _.
        destruct (lookup_lt_is_Some_2 (tasks w) k (inv_bound w I k Hk)) as [t Hl].
        exists k, (request_cancel t). split; [reflexivity|].
        rewrite list_lookup_alter_eq, Hl. simpl. split; [reflexivity|].
        unfold request_cancel. destruct (status t) eqn:Hs; simpl; congruence.
      * discriminate.
      * discriminate.
    + unfold create_if_incoming. simpl. destruct (incoming w) as [x|] eqn:Hx.
      * pose proof (Inv_create w x false I Hx) as H. rewrite Hx in H.
        apply H. rewrite (inv_none w I Hk). intros k t Hl. discriminate.
      * split; simpl; try congruence.
        -- intros k t Hl. rewrite (inv_none w I Hk) in Hl. discriminate.
        -- intros _. by apply (inv_none w I).
  - destruct (inv_cancel w I Hc) as (k & t & Hk & Hl & Hs). rewrite Hk, Hl.
    destruct (is_done t) eqn:Hd; [|exact I].
    unfold create_if_incoming. destruct (incoming w) as [x|] eqn:Hx.
    + pose proof (Inv_create w x (event w) I Hx) as H. rewrite Hx in H.
      apply H. by eapply all_done_but_current.
    + rewrite (inv_incoming w I Hx) in Hk. discriminate.
Qed.

Lemma Inv_step w e : Inv w → Inv (step w e).
Proof.
  intros I. destruct e as [s m| | | |k|k]; simpl.
  - destruct I. split; simpl; assumption.
  - unfold c1_get. destruct (got w); [exact I|].
    destruct (_Q w); [exact I|]. destruct I. split; simpl; assumption.
  - unfold c1_set. destruct (got w); [|exact I].
    destruct I as [I1 I2 I3 I4 I5 I6 I7]. split; simpl; auto; discriminate.
  - by apply Inv_c2_step.
  - apply Inv_on_task; [apply alive_unwind | | | | exact I];
      intros t; unfold unwind; destruct (status t) eqn:E; simpl;
      rewrite ?E; auto; try congruence; intros [?|?]; congruence.
  - apply Inv_on_task; [apply alive_finish | | | | exact I];
      intros t; unfold finish; destruct (status t) eqn:E; simpl;
      rewrite ?E; auto; try congruence; intros [?|?]; congruence.
Qed.

Lemma Inv_run steps : ∀ w, Inv w → Inv (run w steps).
Proof.
  induction steps as [|e steps IH]; intros w I; simpl; [exact I|].
  apply IH, Inv_step, I.
Qed.

(** *** The newest trigger *)

Lemma c2_step_keeps w :
  _Q (c2_step w) = _Q w ∧ got (c2_step w) = got w ∧
  incoming (c2_step w) = incoming w.
Proof.
  assert (Hc : ∀ w0 : Loop State,
             _Q (create_if_incoming w0) = _Q w0 ∧
             got (create_if_incoming w0) = got w0 ∧
             incoming (create_if_incoming w0) = incoming w0).
  { intros w0. unfold create_if_incoming.
    destruct (incoming w0) eqn:E; simpl; auto. }
  unfold c2_step. destruct (c2 w).
  - destruct (event w); [|auto]. destruct (task w) as [k|]; [simpl; auto|].
    match goal with |- context [create_if_incoming ?w0] =>
      destruct (Hc w0) as (-> & -> & ->) end.
    auto.
  - destruct (task w) as [k|]; [|apply Hc].
    destruct (tasks w !! k) as [tk|]; [|apply Hc].
    destruct (is_done tk); [apply Hc | auto].
Qed.

Lemma newest_step w e :
  newest (step w e) =
  match e with CompFunc s m => Some (s, m) | _ => newest w end.
Proof.
  unfold newest. destruct e as [s m| | | |k|k]; simpl.
  - rewrite last_snoc. reflexivity.
  - unfold c1_get. destruct (got w) as [g|] eqn:Hg; [rewrite Hg; reflexivity|].
    destruct (_Q w) as [|x [|y q]] eqn:HQ; simpl; rewrite ?Hg, ?HQ;
      try reflexivity.
    destruct (last (y :: q)) eqn:E; [reflexivity|].
    apply last_None in E. discriminate.
  - unfold c1_set. destruct (got w) as [g|] eqn:Hg; simpl; rewrite ?Hg; reflexivity.
  - destruct (c2_step_keeps w) as (-> & -> & ->). reflexivity.
  - reflexivity.
  - reflexivity.
Qed.

Lemma triggers_snoc steps e :
  triggers (steps ++ [e]) =
  triggers steps ++ match e with CompFunc s m => [(s, m)] | _ => [] end.
Proof.
  unfold triggers. rewrite omap_app. f_equal. destruct e; reflexivity.
Qed.

Lemma newest_run steps : newest (run init steps) = last (triggers steps).
Proof.
  induction steps as [|e steps IH] using rev_ind; [reflexivity|].
  rewrite run_steps_app, triggers_snoc. simpl. rewrite newest_step.
  destruct e; rewrite ?app_nil_r, ?last_snoc; auto.
Qed.

(** *** Creation is gated by termination *)

Lemma creation_gated w e :
  Inv w → length (tasks (step w e)) ≠ length (tasks w) →
  e = C2Step ∧
  (∀ k t, tasks w !! k = Some t → is_done t = true) ∧
  ∃ x, incoming w = Some x ∧
       tasks (step w e) = tasks w ++ [ {| args := x; status := Running |} ] ∧
       task (step w e) = Some (length (tasks w)).
Proof.
  intros I. destruct e as [s m| | | |k|k]; simpl.
  - intros H. by destruct H.
  - unfold c1_get. destruct (got w), (_Q w); intros H; by destruct H.
  - unfold c1_set. destruct (got w); intros H; by destruct H.
  - intros H. split; [reflexivity|]. revert H. unfold c2_step.
    destruct (c2 w) eqn:Hc.
    + destruct (event w); [|intros H; by destruct H].
      destruct (task w) as [k|] eqn:Hk; simpl.
      * rewrite length_alter. intros H; by destruct H.
      * unfold create_if_incoming. simpl.
        destruct (incoming w) as [x|]; simpl; [|intros H; by destruct H].
        intros _. split; [|eauto].
        intros k t Hl. rewrite (inv_none w I Hk) in Hl. discriminate.
    + destruct (inv_cancel w I Hc) as (k & t & Hk & Hl & Hs). rewrite Hk, Hl.
      destruct (is_done t) eqn:Hd; [|intros H; by destruct H].
      unfold create_if_incoming.
      destruct (incoming w) as [x|]; simpl; [|intros H; by destruct H].
      intros _. split; [|eauto]. by eapply all_done_but_current.
  - rewrite length_alter. intros H; by destruct H.
  - rewrite length_alter. intros H; by destruct H.
Qed.

(** *** At rest *)

Lemma quiescent_runs_newest w x :
  Inv w → quiescent w → newest w = Some x →
  ∃ k t, task w = Some k ∧ tasks w !! k = Some t ∧ args t = x ∧
         (status t = Running ∨ status t = Finished) ∧
         ∀ k' t', tasks w !! k' = Some t' → k' ≠ k → is_done t' = true.
Proof.
  intros I (HQ & Hg & He & Hc) Hn.
  unfold newest in Hn. rewrite HQ, Hg in Hn. simpl in Hn.
  destruct (inv_served w I He Hc x Hn) as (k & t & Hk & Hl & Ha).
  exists k, t. repeat split; auto.
  - by apply (inv_event w I Hc k t).
  - intros k' t' Hl' Hne. destruct (is_done t') eqn:E; [reflexivity|].
    assert (Hal : alive t' = true) by (unfold alive; rewrite E; reflexivity).
    pose proof (inv_single w I k' t' Hl' Hal). congruence.
Qed.

(** *** Coming to rest *)

Lemma is_done_unwind t : status t ≠ Running → is_done (unwind t) = true.
Proof.
  unfold is_done, unwind. destruct (status t) eqn:E; simpl; rewrite ?E; congruence.
Qed.

Lemma is_done_unwind_request t : is_done (unwind (request_cancel t)) = true.
Proof.
  apply is_done_unwind. unfold request_cancel.
  destruct (status t) eqn:E; simpl; congruence.
Qed.

Lemma drain (q : list (Trigger (State:=State))) : ∀ w,
  _Q w = q → got w = None →
  let w1 := run w (concat (map (λ _, [C1Get; C1Set]) q)) in
  _Q w1 = [] ∧ got w1 = None ∧ c2 w1 = c2 w.
Proof.
  induction q as [|x q IH]; intros w HQ Hg; simpl.
  - auto.
  - unfold c1_get, c1_set at 2. rewrite Hg, HQ. simpl.
    match goal with |- context [run ?w0 _] =>
      destruct (IH w0 eq_refl eq_refl) as (H1 & H2 & H3) end.
    auto.
Qed.

Lemma hand_over_run w :
  let w1 := run w (hand_over w) in
  _Q w1 = [] ∧ got w1 = None ∧ c2 w1 = c2 w.
Proof.
  unfold hand_over. cbv zeta. rewrite run_steps_app.
  destruct (got w) as [g|] eqn:Hg; simpl.
  - unfold c1_set. rewrite Hg.
    match goal with |- context [run ?w0 _] =>
      destruct (drain (_Q w) w0 eq_refl eq_refl) as (H1 & H2 & H3) end.
    auto.
  - apply (drain (_Q w) w eq_refl Hg).
Qed.

Lemma create_if_incoming_rest w :
  _Q (create_if_incoming w) = _Q w ∧ got (create_if_incoming w) = got w ∧
  event (create_if_incoming w) = event w ∧ c2 (create_if_incoming w) = AtEvent.
Proof. unfold create_if_incoming. destruct (incoming w); simpl; auto. Qed.

Lemma c2_step_after_cancel w k :
  c2 w = AtCancel → task w = Some k →
  (∀ t, tasks w !! k = Some t → is_done t = true) →
  _Q (c2_step w) = _Q w ∧ got (c2_step w) = got w ∧
  event (c2_step w) = event w ∧ c2 (c2_step w) = AtEvent.
Proof.
  intros Hc Hk Hd. unfold c2_step. rewrite Hc, Hk.
  destruct (tasks w !! k) as [t|] eqn:Hl.
  - rewrite (Hd t eq_refl). apply create_if_incoming_rest.
  - apply create_if_incoming_rest.
Qed.

Lemma finish_cancel_run w :
  Inv w → _Q w = [] → got w = None →
  let w1 := run w (finish_cancel w) in
  _Q w1 = [] ∧ got w1 = None ∧ c2 w1 = AtEvent.
Proof.
  intros I HQ Hg. unfold finish_cancel. destruct (c2 w) eqn:Hc; [simpl; auto|].
  destruct (inv_cancel w I Hc) as (k & t & Hk & Hl & Hs). rewrite Hk.
  cbv zeta. change (run w [TaskUnwind k; C2Step])
    with (c2_step (on_task unwind k w)).
  destruct (c2_step_after_cancel (on_task unwind k w) k) as (H1 & H2 & _ & H4).
  - exact Hc.
  - exact Hk.
  - simpl. rewrite list_lookup_alter_eq, Hl. simpl. intros t' [= <-].
    by apply is_done_unwind.
  - rewrite H1, H2, H4. simpl. auto.
Qed.

Lemma serve_event_run w :
  _Q w = [] → got w = None → c2 w = AtEvent →
  quiescent (run w (serve_event w)).
Proof.
  intros HQ Hg Hc. unfold serve_event, quiescent.
  destruct (event w) eqn:He; [|simpl; auto].
  destruct (task w) as [k|] eqn:Hk.
  - change (run w [C2Step; TaskUnwind k; C2Step])
      with (c2_step (on_task unwind k (c2_step w))).
    assert (E : c2_step w =
                {| _Q := _Q w; got := got w; incoming := incoming w;
                   event := false; task := Some k;
                   tasks := alter request_cancel k (tasks w);
                   c2 := AtCancel |}).
    { unfold c2_step. rewrite Hc, He, Hk. reflexivity. }
    rewrite E.
    match goal with |- context [c2_step ?w0] =>
      destruct (c2_step_after_cancel w0 k) as (H1 & H2 & H3 & H4) end.
    + reflexivity.
    + reflexivity.
    + simpl. rewrite !list_lookup_alter_eq.
      destruct (tasks w !! k) as [t|]; simpl; [|discriminate].
      intros t' [= <-]. apply is_done_unwind_request.
    + rewrite H1, H2, H3, H4. simpl. auto.
  - change (run w [C2Step]) with (c2_step w).
    unfold c2_step. rewrite Hc, He, Hk.
    match goal with |- context [create_if_incoming ?w0] =>
      destruct (create_if_incoming_rest w0) as (H1 & H2 & H3 & H4) end.
    rewrite H1, H2, H3, H4. simpl. auto.
Qed.

Lemma settle_quiescent w :
  Inv w → quiescent (run w (settle w)) ∧ triggers (settle w) = [].
Proof.
  intros I. unfold settle. cbv zeta. split.
  - rewrite !run_steps_app.
    destruct (hand_over_run w) as (H1 & H2 & H3).
    pose proof (Inv_run (hand_over w) w I) as I1.
    destruct (finish_cancel_run _ I1 H1 H2) as (H4 & H5 & H6).
    by apply serve_event_run.
  - unfold triggers. rewrite !omap_app.
    assert (Hh : omap (λ e : Step State,
                        match e with CompFunc s m => Some (s, m) | _ => None end)
                   (hand_over w) = []).
    { unfold hand_over. rewrite omap_app.
      replace (omap _ (match got w with Some _ => [C1Set] | None => [] end))
        with (@nil (State * bool)) by (destruct (got w); reflexivity).
      simpl. induction (_Q w); simpl; auto. }
    rewrite Hh. simpl.
    unfold finish_cancel, serve_event.
    repeat (match goal with
            | |- context [match ?x with _ => _ end] => destruct x
            end; simpl); reflexivity.
Qed.

(** C1.  Whatever the schedule of triggers, of [c1], of [c2] and of the
    tasks: no two tasks are alive together; a task is created only by
    [c2], and only when every task created before is done (cancelled
    and unwound, or finished), from the value of [incoming]; once [c1]
    and [c2] have nothing left to do, the task that stands, never asked to
    stop, was created with the data of the last trigger, and every other
    task is done; and from any point a schedule without further triggers
    brings [c1] and [c2] to that rest. *)
Theorem single_flight steps :
  let w := run (State:=State) init steps in
  (∀ i j ti tj, tasks w !! i = Some ti → tasks w !! j = Some tj →
                alive ti = true → alive tj = true → i = j) ∧
  (∀ e, length (tasks (step w e)) ≠ length (tasks w) →
        e = C2Step ∧
        (∀ k t, tasks w !! k = Some t → is_done t = true) ∧
        ∃ x, incoming w = Some x ∧
             tasks (step w e) = tasks w ++ [ {| args := x; status := Running |} ]) ∧
  (∀ x, quiescent w → last (triggers steps) = Some x →
        ∃ k t, task w = Some k ∧ tasks w !! k = Some t ∧ args t = x ∧
               (status t = Running ∨ status t = Finished) ∧
               ∀ k' t', tasks w !! k' = Some t' → k' ≠ k →
                        is_done t' = true) ∧
  (quiescent (run w (settle w)) ∧ triggers (settle w) = []).
Proof.
  cbv zeta. pose proof (Inv_run steps init Inv_init) as I.
  split; [|split; [|split]].
  - intros i j ti tj Hi Hj Hai Haj.
    pose proof (inv_single _ I i ti Hi Hai) as H1.
    pose proof (inv_single _ I j tj Hj Haj) as H2. congruence.
  - intros e He. destruct (creation_gated _ e I He) as (H1 & H2 & x & H3 & H4 & _).
    eauto.
  - intros x Hq Hl. apply quiescent_runs_newest; auto.
    rewrite newest_run. exact Hl.
  - by apply settle_quiescent.
Qed.

End Loop.
End SupervisorFacts.

(** ** Scenarios *)

Module Scenarios.
Import Samples.

Local Open Scope string_scope.

(** C4.  After a reply with [done=true] has been accepted at the consumer's
    epoch, the consumer yields the accumulated item and, resumed again, is
    parked in [cond.wait()]: line 81 tests the local [done] of line 64, which
    is never anything but [False], not the [done] of the session. *)
Theorem done_reply_leaves_consumer_waiting :
  Request.session (fst (Request.run Request.init done_schedule)) channel =
    {| Request.uid := 0; Request.done := true; Request.acc := [item "a"] |} ∧
  snd (Request.run Request.init done_schedule) = [(0%nat, item "a")] ∧
  Request.pc_of (fst (Request.run Request.init done_schedule)) 0 =
    Some Request.AtWait.
Proof. vm_compute. repeat split. Qed.

(** A consumer suspended at a [yield] when a newer open takes over the
    channel goes on with the snapshot it took before: resumed, it yields the
    next item, and after the last one it parks in [cond.wait()]. *)
Lemma superseded_mid_pass_yields_more :
  Request.uid (Request.session mid_pass channel) = 1 ∧
  Request.frames mid_pass !! 0%nat = Some (the_consumer (Request.AtYield [item "b"])) ∧
  Request.yielded_by 0 (snd (Request.run mid_pass [Request.Advance 0])) =
    [item "b"] ∧
  Request.pc_of
    (fst (Request.run mid_pass [Request.Advance 0; Request.Advance 0])) 0 =
    Some Request.AtWait.
Proof. vm_compute. repeat split. Qed.

(** The item of the first reply, accepted once, is yielded in both
    passes. *)
Lemma item_yielded_twice :
  Request.yielded_by 0 (snd (Request.run Request.init two_pass_schedule)) =
    [item "a"; item "a"; item "b"] ∧
  Request.acc (Request.session
                 (fst (Request.run Request.init two_pass_schedule)) channel) =
    [item "a"; item "b"].
Proof. vm_compute. repeat split. Qed.


Lemma supersession_abort_witness :
  Request.frames superseded !! 0%nat = Some (the_consumer Request.AtLoop) ∧
  Request.yielded_by 0 (snd (Request.run superseded late_schedule)) = [] ∧
  Request.pc_of (fst (Request.run superseded late_schedule)) 0 =
    Some Request.Returned.
Proof.
  assert (Hw : Request.wf waiting) by (vm_compute; repeat constructor).
  destruct (RequestFacts.supersession_abort waiting 0 (the_consumer Request.AtWait)
              Hw eq_refl) as [H1 _].
  destruct (H1 (or_intror eq_refl)) as (Hw1 & Hgt & Hf).
  split; [exact Hf|].
  destruct (RequestFacts.supersession_abort superseded 0
              (the_consumer Request.AtLoop) Hw1 Hf) as [_ H2].
  destruct (H2 eq_refl Hgt late_schedule) as (Hy & _ & _ & Hr).
  split; [exact Hy|]. apply Hr. vm_compute. lia.
Defined.

Lemma lsp_notify_witness :
  Request.session (Request._lsp_notify (payload 5 true "stale") one_yielded)
    channel = Request.session one_yielded channel ∧
  Request.frames (Request._lsp_notify (payload 0 false "b") one_yielded) !! 0%nat =
    Some (the_consumer Request.AtLoop).
Proof.
  destruct (RequestFacts.lsp_notify_accepts_current_epoch_only (Any:=string))
    as (H1 & _ & H3).
  split.
  - apply H1. vm_compute. discriminate.
  - destruct (H3 one_yielded (payload 0 false "b") eq_refl) as [_ Hn].
    apply (Hn 0%nat (the_consumer Request.AtWait)); reflexivity.
Defined.

Lemma pass_witness :
  Request.yielded_by 0
    (snd (Request.run two_replies
            [Request.Advance 0; Request.Ingest (payload 0 false "c");
             Request.Advance 0; Request.Advance 0])) =
    [item "a"; item "b"] ∧
  Request.yielded_by 0
    (snd (Request.run one_yielded
            [Request.Ingest (payload 0 false "b"); Request.Advance 0;
             Request.Advance 0])) =
    [item "a"; item "b"].
Proof.
  split.
  - destruct (RequestFacts.pass_yields_whole_snapshot two_replies 0
                (the_consumer Request.AtLoop) eq_refl eq_refl) as [H _].
    apply (H eq_refl [Request.Ingest (payload 0 false "c");
                      Request.Advance 0; Request.Advance 0]).
    vm_compute. lia.
  - destruct (RequestFacts.pass_yields_whole_snapshot one_yielded 0
                (the_consumer Request.AtWait) eq_refl eq_refl) as [_ H].
    apply (H eq_refl (payload 0 false "b") [Request.Advance 0]); reflexivity.
Defined.

Lemma should_cont_witness :
  Gating._should_cont (a_state (0, 0) None) (ctx false 1%N (0, 0) [] [])
    (ctx true 1%N (0, 0) [] []) = true ∧
  Gating._should_cont (a_state (3, 4) None) (ctx false 1%N (0, 0) [] [])
    (ctx false 1%N (0, 5) [120%N] [120%N]) = false ∧
  Gating._should_cont (a_state (0, 5) (Some (Types.ExternPath true)))
    (ctx false 1%N (0, 0) [] []) (ctx false 2%N (0, 5) [] []) = true ∧
  Gating._should_cont (a_state (3, 4) None) (ctx false 1%N (0, 0) [] [])
    (ctx false 2%N (0, 5) [120%N] [120%N]) = true ∧
  Gating._should_cont (a_state (3, 4) None) (ctx false 1%N (0, 0) [] [])
    (ctx false 2%N (0, 5) letter_space []) = true.
Proof.
  split; [|split; [|split; [|split]]].
  - destruct (GatingFacts.should_cont_cases (a_state (0, 0) None)
                (ctx false 1%N (0, 0) [] []) (ctx true 1%N (0, 0) [] []))
      as (H & _).
    apply H. reflexivity.
  - destruct (GatingFacts.should_cont_cases (a_state (3, 4) None)
                (ctx false 1%N (0, 0) [] [])
                (ctx false 1%N (0, 5) [120%N] [120%N]))
      as (_ & H & _).
    apply H; reflexivity.
  - destruct (GatingFacts.should_cont_cases
                (a_state (0, 5) (Some (Types.ExternPath true)))
                (ctx false 1%N (0, 0) [] []) (ctx false 2%N (0, 5) [] []))
      as (_ & _ & H & _).
    apply H; [reflexivity | discriminate | reflexivity | reflexivity].
  - destruct (GatingFacts.should_cont_cases (a_state (3, 4) None)
                (ctx false 1%N (0, 0) [] [])
                (ctx false 2%N (0, 5) [120%N] [120%N]))
      as (_ & _ & _ & H & _).
    apply H; [reflexivity | discriminate | discriminate | discriminate].
  - destruct (GatingFacts.should_cont_cases (a_state (3, 4) None)
                (ctx false 1%N (0, 0) [] [])
                (ctx false 2%N (0, 5) letter_space []))
      as (_ & _ & _ & _ & H).
    apply H; [reflexivity | discriminate | discriminate | reflexivity |].
    exists [120%N], [32%N]. repeat split.
    + discriminate.
    + intros c [= <-]. reflexivity.
    + repeat constructor.
    + simpl. lia.
Defined.

Lemma resolve_fallback_witness :
  Resolve._resolve (a_metric (Some lsp_extern)) (an_env Resolve.Silent) =
    ([Resolve.LruGet 7%N; Resolve.Go lsp_extern; Resolve.Wait; Resolve.Cancel 1],
     inr (a_metric (Some lsp_extern))) ∧
  snd (Resolve._resolve (a_metric (Some lsp_extern))
         (an_env (Resolve.Failed "broken pipe"))) =
    inr (a_metric (Some lsp_extern)) ∧
  snd (Resolve._resolve (a_metric (Some lsp_extern))
         (an_env (Resolve.Replied (Some enriched)))) =
    inr {| Types.instance := 1%N;
           Types.comp := {| Types.uid := 7%N;
                            Types.secondary_edits := ["import os"];
                            Types.extern := Some lsp_extern |} |}.
Proof.
  split; [|split].
  - destruct (ResolveFacts.resolve_falls_back (a_metric (Some lsp_extern))
                (an_env Resolve.Silent) (Some "pyright") "item"
                eq_refl eq_refl) as (H & _).
    apply H. reflexivity.
  - destruct (ResolveFacts.resolve_falls_back (a_metric (Some lsp_extern))
                (an_env (Resolve.Failed "broken pipe")) (Some "pyright") "item"
                eq_refl eq_refl) as (_ & H & _).
    apply (H "broken pipe"). reflexivity.
  - destruct (ResolveFacts.resolve_falls_back (a_metric (Some lsp_extern))
                (an_env (Resolve.Replied (Some enriched))) (Some "pyright")
                "item" eq_refl eq_refl) as (_ & _ & H).
    apply (H enriched). reflexivity.
Defined.

Lemma resolve_skip_witness :
  Resolve._resolve (a_metric (Some (Types.ExternPath true)))
    (an_env (Resolve.Replied (Some enriched))) =
    ([], inr (a_metric (Some (Types.ExternPath true)))).
Proof.
  apply (ResolveFacts.resolve_skips_non_lsp
           (a_metric (Some (Types.ExternPath true)))).
  reflexivity.
Defined.


(** The task of the first trigger is cancelled; the second trigger never
    gets a task; the third gets one, which is cancelled and created again
    because the event was set once more meanwhile. *)
Example debounce_coalescing :
  Supervisor.args <$> Supervisor.tasks (Supervisor.run Supervisor.init coalescing) =
    [(1%nat, true); (3%nat, true); (3%nat, true)] ∧
  Supervisor.status <$> Supervisor.tasks (Supervisor.run Supervisor.init coalescing) =
    [Supervisor.Cancelled; Supervisor.Cancelled; Supervisor.Running] ∧
  Supervisor.quiescent (Supervisor.run Supervisor.init coalescing).
Proof. vm_compute. repeat split. Qed.

Lemma single_flight_witness :
  ∃ k t,
    Supervisor.task (Supervisor.run Supervisor.init burst) = Some k ∧
    Supervisor.tasks (Supervisor.run Supervisor.init burst) !! k = Some t ∧
    Supervisor.args t = (2%nat, false) ∧
    (Supervisor.status t = Supervisor.Running ∨
     Supervisor.status t = Supervisor.Finished) ∧
    ∀ k' t', Supervisor.tasks (Supervisor.run Supervisor.init burst) !! k' = Some t' →
             k' ≠ k → Supervisor.is_done t' = true.
Proof.
  destruct (SupervisorFacts.single_flight burst) as (_ & _ & H & _).
  apply H.
  - repeat split.
  - reflexivity.
Defined.

End Scenarios.

(** ** More about the reply correlator *)

Module RequestMore.
Import Request RequestAux.

Section Correlator.
Context {Any : Type}.
Implicit Types (w : World Any) (f : Frame Any) (p : _Payload Any)
  (e : Event Any) (evs : list (Event Any)).

(** X1.  From a counter at [n], the opens of a schedule receive the epochs
    [n], [n+1], ... in call order, whatever else happens in between; from the
    initial state, the k-th open receives k. *)
Theorem epochs_count_opens w evs :
  snd <$> opened w evs =
  (λ k, _UIDS (reg w) + Z.of_nat k) <$> seq 0 (opens evs).
Proof.
  revert w. induction evs as [|e evs IH]; intros w; [reflexivity|].
  pose proof (RequestFacts.step_uids w e) as Hu. cbv zeta in Hu.
  simpl. rewrite fmap_app, IH.
  destruct e as [m|p|c]; destruct Hu as [-> _]; simpl.
  - f_equal; [f_equal; lia|].
    rewrite <- fmap_S_seq, <- list_fmap_compose.
    apply list_fmap_ext. intros _ k _. simpl. lia.
  - reflexivity.
  - reflexivity.
Qed.

Lemma coherent_init : coherent (Any:=Any) init.
Proof.
  split; [constructor|]. split.
  - intros m. vm_compute. reflexivity.
  - intros c f H. discriminate.
Qed.

Lemma session_uid_mono w e m :
  uid (session w m) < _UIDS (reg w) →
  uid (session w m) ≤ uid (session (fst (step w e)) m).
Proof.
  intros H. rewrite RequestFacts.session_uid_step.
  destruct e as [m0|p|c]; try lia. destruct (decide (m0 = m)); lia.
Qed.

Lemma coherent_step w e : coherent w → coherent (fst (step w e)).
Proof.
  intros (Hwf & Hs & Hf). split; [by apply RequestFacts.wf_step|]. split.
  - intros m. rewrite RequestFacts.session_uid_step.
    pose proof (RequestFacts.step_counter_mono w e) as Hm.
    pose proof (RequestFacts.step_uids w e) as Hu. cbv zeta in Hu.
    specialize (Hs m).
    destruct e as [m0|p|c]; destruct Hu as [Hu _]; try lia.
    destruct (decide (m0 = m)); lia.
  - intros c f' Hf'.
    destruct (RequestFacts.step_frame_inv w e c f' Hf') as [[f Hl] | _].
    + destruct (RequestFacts.step_locals w e c f Hl) as (f1 & Hf1 & Hm & Hu & _).
      rewrite Hf' in Hf1. injection Hf1 as <-. rewrite Hm, Hu.
      pose proof (session_uid_mono w e (f_method f) (Hs _)).
      specialize (Hf c f Hl). lia.
    + (* the generator this open has just created *)
      destruct (frames w !! c) as [f|] eqn:Hl.
      * destruct (RequestFacts.step_locals w e c f Hl) as (f1 & Hf1 & Hm & Hu & _).
        rewrite Hf' in Hf1. injection Hf1 as <-. rewrite Hm, Hu.
        pose proof (session_uid_mono w e (f_method f) (Hs _)).
        specialize (Hf c f Hl). lia.
      * apply lookup_ge_None in Hl.
        pose proof (lookup_lt_Some _ _ _ Hf') as Hlt.
        rewrite RequestFacts.length_frames_step in Hlt.
        destruct e as [m0|p|c0]; try lia.
        simpl in Hf'. rewrite lookup_app_r in Hf'.
        2: { unfold notify_all. rewrite length_fmap. exact Hl. }
        unfold notify_all in Hf'. rewrite length_fmap in Hf'.
        assert (c = length (frames w)) as -> by lia.
        rewrite Nat.sub_diag in Hf'. simpl in Hf'. injection Hf' as <-.
        cbn [f_uid f_method].
        rewrite RequestFacts.session_uid_step, decide_True by reflexivity. lia.
Qed.

Lemma coherent_run evs : ∀ w, coherent w → coherent (fst (run w evs)).
Proof.
  induction evs as [|e evs IH]; intros w Hw; simpl; [assumption|].
  pose proof (coherent_step w e Hw) as H1. destruct (step w e) as [w1 o].
  specialize (IH w1 H1). destruct (run w1 evs). exact IH.
Qed.

Lemma session_uid_mono_run evs : ∀ w m,
  coherent w → uid (session w m) ≤ uid (session (fst (run w evs)) m).
Proof.
  induction evs as [|e evs IH]; intros w m Hw; simpl; [lia|].
  pose proof (coherent_step w e Hw) as H1.
  pose proof (session_uid_mono w e m (proj1 (proj2 Hw) m)) as H2.
  destruct (step w e) as [w1 o]. specialize (IH w1 m H1).
  destruct (run w1 evs). simpl in *. lia.
Qed.

(** X2.  Along any schedule from the initial state the epoch of a channel
    never goes down: what a later reader of [_STATE[m]] sees is at least what
    an earlier one saw. *)
Theorem channel_epoch_never_decreases evs1 evs2 m :
  uid (session (fst (run (Any:=Any) init evs1)) m) ≤
  uid (session (fst (run (Any:=Any) init (evs1 ++ evs2))) m).
Proof.
  rewrite RequestFacts.run_app. simpl.
  apply session_uid_mono_run, coherent_run, coherent_init.
Qed.

(** X3.  In every state reachable from the initial one, a consumer's epoch
    is at most the epoch of its channel and below the counter: the case
    [acc.uid < uid], in which the loop would wait for its own session to
    appear, never arises. *)
Theorem consumer_never_ahead evs c f :
  frames (fst (run (Any:=Any) init evs)) !! c = Some f →
  f_uid f ≤ uid (session (fst (run init evs)) (f_method f)) ∧
  f_uid f < _UIDS (reg (fst (run init evs))).
Proof.
  intros Hf. destruct (coherent_run evs init coherent_init) as (Hwf & _ & H).
  split; [by apply (H c) | by apply (RequestFacts.wf_lookup _ c)].
Qed.

(** X4.  A done reply never ends a consumer.  In every state reachable
    from the initial one, a consumer whose epoch is still the epoch of its
    channel has not left its loop, however many payloads with [done] set
    have been ingested for it, and its local [done] is still [False]: a
    consumer ends only by being superseded. *)
Theorem current_consumer_never_ends evs c f :
  frames (fst (run (Any:=Any) init evs)) !! c = Some f →
  uid (session (fst (run init evs)) (f_method f)) = f_uid f →
  pc f ≠ Returned ∧ f_done f = false.
Proof.
  intros Hf Hu.
  destruct (RequestFacts.returned_only_when_superseded evs c f Hf) as [Hd Hret].
  split; [|exact Hd]. intros Hpc. specialize (Hret Hpc). lia.
Qed.

(** X5.  Channels do not interfere: an open or a payload on one channel
    leaves the session of every other channel and every consumer of every
    other channel exactly as they were; and resuming a consumer changes no
    session and no other consumer. *)
Theorem channels_do_not_interfere w e m' :
  channel_of e ≠ Some m' →
  session (fst (step w e)) m' = session w m' ∧
  (∀ c f, frames w !! c = Some f → e ≠ Advance c →
          (f_method f = m' ∨ channel_of e = None) →
          frames (fst (step w e)) !! c = Some f).
Proof.
  intros Hne. split.
  - destruct e as [m|p|c]; simpl in Hne.
    + change (fst (step w (Open m))) with (snd (async_request_open m w)).
      rewrite RequestFacts.session_open, decide_False by congruence. reflexivity.
    + change (fst (step w (Ingest p))) with (_lsp_notify p w).
      rewrite RequestFacts.session_notify, decide_False; [reflexivity|].
      intros [H _]. congruence.
    + change (fst (step w (Advance c))) with (fst (advance c w)).
      apply RequestFacts.session_advance.
  - intros c f Hf Hadv Hm. rewrite (RequestFacts.step_frame w e c f Hf). f_equal.
    destruct e as [m|p|c0]; simpl in *.
    + destruct Hm as [Hm | Hm]; [|discriminate].
      unfold wake. destruct (pc f); try reflexivity.
      rewrite bool_decide_eq_false_2; [reflexivity | congruence].
    + destruct Hm as [Hm | Hm]; [|discriminate].
      unfold wake. destruct (pc f); try reflexivity.
      rewrite bool_decide_eq_false_2; [reflexivity | congruence].
    + rewrite decide_False; [reflexivity | congruence].
Qed.

Lemma ingest_all_snoc (ps : list (_Payload Any)) p w :
  ingest_all (ps ++ [p]) w = _lsp_notify p (ingest_all ps w).
Proof. unfold ingest_all. rewrite foldl_app. reflexivity. Qed.

(** X6.  Payloads of one channel that carry the channel's current epoch are
    accumulated in the order they are ingested: after all of them the
    session holds what it held before followed by their (client, reply)
    pairs, at the same epoch, with the done flag of the last one. *)
Theorem replies_accumulate_in_order (ps : list (_Payload Any)) w m :
  Forall (λ p, method p = m ∧ p_uid p = uid (session w m)) ps →
  session (ingest_all ps w) m =
  {| uid := uid (session w m);
     done := default (done (session w m)) (p_done <$> last ps);
     acc := acc (session w m) ++ ((λ p, (client p, reply p)) <$> ps) |}.
Proof.
  induction ps as [|p ps IH] using rev_ind; intros Hall.
  - simpl. rewrite app_nil_r. destruct (session w m). reflexivity.
  - apply Forall_app in Hall as [Hps Hp].
    apply Forall_cons in Hp as [[Hm Hu] _].
    rewrite ingest_all_snoc, RequestFacts.session_notify.
    specialize (IH Hps). rewrite Hm, IH. simpl.
    rewrite decide_True by auto.
    rewrite last_snoc, fmap_app, app_assoc, Hu. reflexivity.
Qed.

(** X7.  An open starts its channel afresh: the session is empty and not
    done at the new epoch, and a payload of the channel tagged with any
    epoch handed out before that open is discarded, so replies to earlier
    requests are invisible to the new one. *)
Theorem open_hides_earlier_replies w m p :
  method p = m → p_uid p < _UIDS (reg w) →
  session (snd (async_request_open m w)) m =
    {| uid := _UIDS (reg w); done := false; acc := [] |} ∧
  session (_lsp_notify p (snd (async_request_open m w))) m =
    {| uid := _UIDS (reg w); done := false; acc := [] |}.
Proof.
  intros Hm Hlt.
  assert (Ho : session (snd (async_request_open m w)) m =
               {| uid := _UIDS (reg w); done := false; acc := [] |}).
  { rewrite RequestFacts.session_open, decide_True by reflexivity. reflexivity. }
  split; [exact Ho|].
  rewrite RequestFacts.session_notify, decide_False; [exact Ho|].
  rewrite Hm, Ho. simpl. intros [_ H]. lia.
Qed.

(** X8.  The notification of lines 54-55 does not depend on the payload
    being accepted: a discarded payload still wakes a consumer waiting on
    its channel, and if that consumer's epoch is the current one it runs
    through the whole accumulated sequence once more. *)
Theorem stale_payload_wakes_consumer w c f p evs :
  frames w !! c = Some f → pc f = AtWait → method p = f_method f →
  p_uid p ≠ uid (session w (f_method f)) →
  frames (_lsp_notify p w) !! c = Some (set_pc f AtLoop) ∧
  (uid (session w (f_method f)) = f_uid f →
   (resumptions c evs ≤ length (acc (session w (f_method f))))%nat →
   yielded_by c (snd (run w (Ingest p :: Advance c :: evs))) =
   take (S (resumptions c evs)) (acc (session w (f_method f)))).
Proof.
  intros Hf Hpc Hm Hne.
  assert (Hf1 : frames (_lsp_notify p w) !! c = Some (set_pc f AtLoop)).
  { change (_lsp_notify p w) with (fst (step w (Ingest p))).
    rewrite (RequestFacts.step_frame w (Ingest p) c f Hf). f_equal.
    unfold wake. rewrite Hpc, bool_decide_eq_true_2 by congruence. reflexivity. }
  split; [exact Hf1|]. intros Hu Hn.
  rewrite RequestFacts.run_Ingest.
  pose proof (RequestFacts.session_notify p w (f_method f)) as Hs.
  rewrite decide_False in Hs by (rewrite Hm; tauto).
  pose proof (RequestFacts.pass_from_loop (_lsp_notify p w) c _ evs Hf1 eq_refl)
    as Hpass.
  change (f_method (set_pc f AtLoop)) with (f_method f) in Hpass.
  change (f_uid (set_pc f AtLoop)) with (f_uid f) in Hpass.
  rewrite Hs in Hpass. by apply Hpass.
Qed.

(** X9.  A payload for a channel [_STATE] has no entry for creates the
    entry: with the default session (uid -1, done, empty) when the payload's
    uid is anything but -1, and with the payload accepted into the default
    session when its uid is -1; no other entry changes. *)
Theorem payload_for_unknown_channel w p :
  _STATE (reg w) !! method p = None →
  _STATE (reg (_lsp_notify p w)) !! method p =
    Some (if decide (p_uid p = -1)
          then {| uid := -1; done := p_done p; acc := [(client p, reply p)] |}
          else default_session) ∧
  ∀ m, m ≠ method p →
       _STATE (reg (_lsp_notify p w)) !! m = _STATE (reg w) !! m.
Proof.
  intros Hnone. unfold _lsp_notify, getitem. rewrite Hnone. simpl.
  destruct (decide (p_uid p = -1)) as [Hu|Hu].
  - rewrite bool_decide_eq_true_2 by exact Hu. simpl. split.
    + rewrite lookup_insert_eq, Hu. reflexivity.
    + intros m Hm. rewrite !lookup_insert_ne by congruence. reflexivity.
  - rewrite bool_decide_eq_false_2 by exact Hu. simpl. split.
    + apply lookup_insert_eq.
    + intros m Hm. rewrite lookup_insert_ne by congruence. reflexivity.
Qed.

End Correlator.
End RequestMore.

(** ** More about the serial executor *)

Module ExecutorMore.
Import Executor.

Section Exec.
Context {T Exn BaseExn : Type}.
Implicit Types (q : list (Job T Exn BaseExn)) (h : list (Future T Exn))
  (job : Job T Exn BaseExn) (ex : Executor T Exn BaseExn).

Lemma _forever_length q : ∀ h, length (snd (fst (_forever q h))) = length h.
Proof.
  induction q as [|j q IH]; intros h; simpl; [reflexivity|].
  destruct (h !! j_fut j) as [fut|]; [|apply IH].
  destruct (cont (j_f j) (j_args j) fut) as [fut'|b]; [|reflexivity].
  rewrite IH. apply length_insert.
Qed.

(** A queue of calls that raise at most [Exception] is worked off to the
    end, and what is queued behind it is then worked on the futures it
    leaves. *)
Lemma _forever_app q1 q2 h :
  Forall (λ j, safe (j_f j (j_args j))) q1 →
  _forever (q1 ++ q2) h = _forever q2 (snd (fst (_forever q1 h))).
Proof.
  revert h. induction q1 as [|j q1 IH]; intros h Hs; simpl; [reflexivity|].
  apply Forall_cons in Hs as [Hj Hs].
  destruct (h !! j_fut j) as [fut|]; [|by apply IH].
  destruct (ExecutorFacts.cont_safe (j_f j) (j_args j) fut Hj) as [fut' ->].
  by apply IH.
Qed.

(** X10.  A call that raises outside [Exception] ends the worker where it
    stands in the queue: the calls queued ahead of it have been executed on
    their futures, its own future and everything queued behind it are left
    untouched, and the calls behind it stay in the queue. *)
Theorem fatal_call_stops_the_worker q1 q2 h job b :
  Forall (λ j, safe (j_f j (j_args j))) q1 →
  j_f job (j_args job) = RaisesBase b →
  (j_fut job < length h)%nat →
  _forever (q1 ++ job :: q2) h = (q2, snd (fst (_forever q1 h)), false).
Proof.
  intros Hs Hb Hlt. rewrite (_forever_app q1 (job :: q2) h Hs). simpl.
  rewrite <- (_forever_length q1 h) in Hlt.
  destruct (lookup_lt_is_Some_2 _ _ Hlt) as [fut ->].
  unfold cont. rewrite Hb. reflexivity.
Qed.

(** A future that is settled or cancelled is never written again,
    whatever the worker goes through. *)
Lemma _forever_keeps_settled q h i (fut : Future T Exn) :
  h !! i = Some fut → fut ≠ PENDING →
  snd (fst (_forever q h)) !! i = Some fut.
Proof.
  revert h. induction q as [|j q IH]; intros h Hi Hne; simpl; [exact Hi|].
  destruct (h !! j_fut j) as [fut0|] eqn:Hj; [|by apply IH].
  destruct (cont (j_f j) (j_args j) fut0) as [fut'|b] eqn:Hc; [|exact Hi].
  apply IH; [|exact Hne].
  destruct (decide (j_fut j = i)) as [Heq|Hneq].
  - rewrite Heq in *. rewrite Hi in Hj. injection Hj as <-.
    rewrite list_lookup_insert_eq by (by eapply lookup_lt_Some). f_equal.
    unfold cont in Hc. destruct (j_f j (j_args j)); try discriminate;
      injection Hc as <-; destruct fut; simpl; congruence.
  - rewrite list_lookup_insert_ne by assumption. exact Hi.
Qed.

(** X11.  Every call waiting in a queue of calls that raise at most
    [Exception], each with a pending future of its own, is answered: after
    the worker has gone through the queue each future holds the outcome of
    its own call. *)
Theorem every_queued_call_is_answered q h :
  Forall (λ j, safe (j_f j (j_args j))) q →
  NoDup (j_fut <$> q) →
  Forall (λ j, h !! j_fut j = Some PENDING) q →
  Forall (λ j, snd (fst (_forever q h)) !! j_fut j =
               Some (settled (j_f j (j_args j)))) q.
Proof.
  revert h. induction q as [|j q IH]; intros h Hs Hnd Hp; [constructor|].
  apply Forall_cons in Hs as [Hj Hs]. apply Forall_cons in Hp as [Hpj Hp].
  rewrite fmap_cons in Hnd. apply NoDup_cons in Hnd as [Hnin Hnd].
  simpl. rewrite Hpj, (ExecutorFacts.cont_pending _ _ Hj).
  set (h1 := <[j_fut j := settled (j_f j (j_args j))]> h).
  constructor.
  - apply _forever_keeps_settled.
    + apply list_lookup_insert_eq. by eapply lookup_lt_Some.
    + unfold settled. destruct (j_f j (j_args j)); simpl in *; [discriminate..|tauto].
  - apply IH; [exact Hs | exact Hnd |].
    apply Forall_forall. intros j' Hin.
    rewrite Forall_forall in Hp. unfold h1.
    rewrite list_lookup_insert_ne; [by apply Hp|].
    intros Heq. apply Hnin. rewrite Heq. by apply list_elem_of_fmap_2.
Qed.

Lemma _forever_keeps_other q : ∀ h n (fut : Future T Exn),
  Forall (λ j, j_fut j ≠ n) q → h !! n = Some fut →
  snd (fst (_forever q h)) !! n = Some fut.
Proof.
  induction q as [|j q IH]; intros h n fut Hq Hl; simpl; [exact Hl|].
  apply Forall_cons in Hq as [Hj Hq].
  destruct (h !! j_fut j) as [fut0|]; [|by apply IH].
  destruct (cont (j_f j) (j_args j) fut0) as [fut'|b]; [|exact Hl].
  apply IH; [exact Hq|]. rewrite list_lookup_insert_ne by assumption. exact Hl.
Qed.

(** X12.  [submit] of a call that raises outside [Exception] never
    returns: the worker leaves its loop with the future still pending, and
    every later [submit] finds no worker and blocks as well. *)
Theorem submit_blocks_after_fatal_call {A B}
    (f : A → Outcome T Exn BaseExn) (args : A)
    (g : B → Outcome T Exn BaseExn) (args' : B) ex b :
  worker ex = true → queue_ok ex → f args = RaisesBase b →
  fst (submit f args ex) = Blocked ∧
  worker (snd (submit f args ex)) = false ∧
  fst (submit g args' (snd (submit f args ex))) = Blocked.
Proof.
  intros Hw Hq Hb.
  set (job := {| j_A := A; j_f := f; j_args := args;
                 j_fut := length (heap ex) |}).
  assert (Hsafe : Forall (λ j, safe (j_f j (j_args j))) (_q ex)).
  { eapply Forall_impl; [exact Hq|]. intros j [H _]. exact H. }
  assert (Hkeep : snd (fst (_forever (_q ex) (heap ex ++ [PENDING])))
                    !! length (heap ex) = Some PENDING).
  { apply _forever_keeps_other.
    - eapply Forall_impl; [exact Hq|]. simpl. intros j [_ Hlt]. lia.
    - rewrite lookup_app_r, Nat.sub_diag by lia. reflexivity. }
  assert (E : _forever (_q ex ++ [job]) (heap ex ++ [PENDING]) =
              ([], snd (fst (_forever (_q ex) (heap ex ++ [PENDING]))), false)).
  { rewrite (_forever_app (_q ex) [job] _ Hsafe). simpl. rewrite Hkeep.
    unfold cont. simpl. rewrite Hb. reflexivity. }
  assert (S1 : submit f args ex =
               (Blocked,
                {| _q := [];
                   heap := snd (fst (_forever (_q ex) (heap ex ++ [PENDING])));
                   worker := false |})).
  { unfold submit, run_worker. cbn [worker _q heap]. rewrite Hw.
    fold job. rewrite E. cbn [fst snd heap]. rewrite Hkeep. reflexivity. }
  rewrite S1. cbn [fst snd worker]. split; [reflexivity|]. split; [reflexivity|].
  unfold submit, run_worker. cbn [worker _q heap fst snd].
  rewrite lookup_app_r, Nat.sub_diag by lia. reflexivity.
Qed.

End Exec.
End ExecutorMore.

(** ** More about the resolve flow *)

Module ResolveMore.
Import Types Resolve.

Section Flow.
Context {Item RangeEdit Exn : Type}.
Implicit Types (metric : Metric Item RangeEdit) (env : Env Item RangeEdit Exn)
  (wrapper : Coroutine Item RangeEdit Exn → Task Item RangeEdit Exn).

Lemma merge_keeps metric (c : Completion Item RangeEdit) :
  instance (merge metric c) = instance metric ∧
  uid (comp (merge metric c)) = uid (comp metric) ∧
  extern (comp (merge metric c)) = extern (comp metric) ∧
  secondary_edits (comp (merge metric c)) = secondary_edits c.
Proof. repeat split. Qed.

(** What [_resolve] returns is the metric it was given, or that metric
    with the [secondary_edits] of the cached completion, or of the completion
    the request came back with. *)
Lemma resolve_result wrapper metric env metric' :
  snd (_resolve_with wrapper metric env) = inr metric' →
  metric' = metric ∨
  ∃ c, metric' = merge metric c ∧
       (lru env !! uid (comp metric) = Some c ∨
        ∃ x, extern (comp metric) = Some x ∧
             wrapper (engine env x) = TaskResult (Some c)).
Proof.
  unfold _resolve_with.
  destruct (extern (comp metric)) as [[cl it|d|]|] eqn:He;
    try (intros [= <-]; left; reflexivity).
  unfold bind, perform, ret, raise. simpl.
  destruct (lru env !! uid (comp metric)) as [c|] eqn:Hl; simpl.
  - intros [= <-]. right. exists c. auto.
  - destruct (wrapper (engine env (ExternLSP cl it))) as [|[c|]|e] eqn:Hw; simpl;
      intros H; try discriminate; injection H as <-; [by left| |by left].
    right. exists c. split; [reflexivity|]. right. eauto.
Qed.

Lemma resolve_keeps wrapper metric env metric' :
  snd (_resolve_with wrapper metric env) = inr metric' →
  instance metric' = instance metric ∧
  uid (comp metric') = uid (comp metric) ∧
  extern (comp metric') = extern (comp metric).
Proof.
  intros H. destruct (resolve_result wrapper metric env metric' H)
    as [-> | (c & -> & _)]; [auto|].
  destruct (merge_keeps metric c) as (? & ? & ? & _). auto.
Qed.

(** X13.  Whatever the cache, the engine and the wrapper task do, a metric
    that [_resolve] returns differs from the one it was given in the
    [secondary_edits] of its completion at most: the instance, the uid and
    the extern are those of the original, and the [secondary_edits] are the
    original ones, or those of the completion cached under the uid, or those
    of the completion the request came back with. *)
Theorem resolve_changes_secondary_edits_only wrapper metric env metric' :
  snd (_resolve_with wrapper metric env) = inr metric' →
  instance metric' = instance metric ∧
  uid (comp metric') = uid (comp metric) ∧
  extern (comp metric') = extern (comp metric) ∧
  (secondary_edits (comp metric') = secondary_edits (comp metric) ∨
   ∃ c, secondary_edits (comp metric') = secondary_edits c ∧
        (lru env !! uid (comp metric) = Some c ∨
         ∃ x, extern (comp metric) = Some x ∧
              wrapper (engine env x) = TaskResult (Some c))).
Proof.
  intros H. destruct (resolve_keeps wrapper metric env metric' H) as (Hi & Hu & He).
  repeat split; try assumption.
  destruct (resolve_result wrapper metric env metric' H) as [-> | (c & -> & Hc)];
    [by left|].
  right. exists c. split; [reflexivity | exact Hc].
Qed.

Lemma resolve_cache_hit wrapper metric env cl it c :
  extern (comp metric) = Some (ExternLSP cl it) →
  lru env !! uid (comp metric) = Some c →
  _resolve_with wrapper metric env =
    ([LruGet (uid (comp metric))], inr (merge metric c)).
Proof.
  unfold _resolve_with. intros -> Hhit.
  unfold bind, perform, ret. simpl. rewrite Hhit. reflexivity.
Qed.

Lemma resolve_miss_log wrapper metric env cl it :
  extern (comp metric) = Some (ExternLSP cl it) →
  lru env !! uid (comp metric) = None →
  fst (_resolve_with wrapper metric env) =
    [LruGet (uid (comp metric)); Go (ExternLSP cl it); Wait] ++
    match wrapper (engine env (ExternLSP cl it)) with
    | TaskPending => [Cancel 1]
    | _ => [Cancel 0; AwaitDone]
    end.
Proof.
  unfold _resolve_with. intros -> Hmiss.
  unfold bind, perform, ret, raise. simpl. rewrite Hmiss.
  destruct (wrapper (engine env (ExternLSP cl it))) as [|[c|]|e]; reflexivity.
Qed.

(** X14.  [_resolve] starts a request only for an [ExternLSP] whose uid the
    cache does not hold, for that very extern, and after the cache has been
    asked; it starts no second one.  On a cache hit the lookup is all it
    does, and the result carries the cached [secondary_edits]. *)
Theorem resolve_requests_only_on_miss wrapper metric env :
  (∀ x, Go x ∈ fst (_resolve_with wrapper metric env) →
        extern (comp metric) = Some x ∧
        isinstance_ExternLSP (Some x) = true ∧
        lru env !! uid (comp metric) = None ∧
        ∃ rest, fst (_resolve_with wrapper metric env) =
                  [LruGet (uid (comp metric)); Go x; Wait] ++ rest ∧
                (∀ y, Go y ∉ rest)) ∧
  (∀ c, isinstance_ExternLSP (extern (comp metric)) = true →
        lru env !! uid (comp metric) = Some c →
        _resolve_with wrapper metric env =
          ([LruGet (uid (comp metric))], inr (merge metric c))).
Proof.
  split.
  - intros x H.
    destruct (extern (comp metric)) as [[cl it|d|]|] eqn:He;
      try (unfold _resolve_with in H; rewrite He in H;
           by apply elem_of_nil in H).
    destruct (lru env !! uid (comp metric)) as [c|] eqn:Hl.
    { rewrite (resolve_cache_hit wrapper metric env cl it c He Hl) in H.
      apply list_elem_of_singleton in H. discriminate. }
    pose proof (resolve_miss_log wrapper metric env cl it He Hl) as E.
    assert (Hrest : ∀ y, Go y ∉ match wrapper (engine env (ExternLSP cl it)) with
                                | TaskPending => [Cancel (Item:=Item) 1]
                                | _ => [Cancel 0; AwaitDone]
                                end).
    { intros y Hy. destruct (wrapper (engine env (ExternLSP cl it)));
        repeat (apply elem_of_cons in Hy as [Hy|Hy]; [discriminate|]);
        by apply elem_of_nil in Hy. }
    rewrite E in H. simpl in H.
    apply elem_of_cons in H as [H|H]; [discriminate|].
    apply elem_of_cons in H as [H|H].
    + injection H as ->. repeat split; eauto.
    + apply elem_of_cons in H as [H|H]; [discriminate|]. by apply Hrest in H.
  - intros c Hl Hhit. unfold isinstance_ExternLSP in Hl.
    destruct (extern (comp metric)) as [[cl it|d|]|] eqn:He; try discriminate.
    by eapply resolve_cache_hit.
Qed.

(** X15.  On a cache miss exactly one request is started and waited for
    once.  A task that is done at the deadline is awaited and nothing is
    cancelled; a task that is not is cancelled and never awaited.  A request
    that comes back without a completion leaves the metric as it was. *)
Theorem resolve_cancels_only_pending wrapper metric env cl it :
  extern (comp metric) = Some (ExternLSP cl it) →
  lru env !! uid (comp metric) = None →
  fst (_resolve_with wrapper metric env) =
    [LruGet (uid (comp metric)); Go (ExternLSP cl it); Wait] ++
    match wrapper (engine env (ExternLSP cl it)) with
    | TaskPending => [Cancel 1]
    | _ => [Cancel 0; AwaitDone]
    end ∧
  (wrapper (engine env (ExternLSP cl it)) = TaskResult None →
   snd (_resolve_with wrapper metric env) = inr metric).
Proof.
  intros He Hmiss. split; [by apply resolve_miss_log|].
  unfold _resolve_with. rewrite He.
  unfold bind, perform, ret. simpl. rewrite Hmiss. intros ->. reflexivity.
Qed.

End Flow.
End ResolveMore.

(** ** [omnifunc] and the triggers the loop works on *)

Module OmnifuncFacts.
Import Supervisor Omnifunc.

Section Omni.
Context {State Mapping : Type}.
Implicit Types (w : Loop State) (e : Step State) (steps : list (Step State))
  (ts : list (Trigger (State:=State))).

Lemma known_mono ts ts' w : ts ⊆ ts' → known ts w → known ts' w.
Proof.
  intros Hsub (HQ & Hg & Hi & Ht). repeat split.
  - eapply Forall_impl; [exact HQ|]. intros x Hx. by apply Hsub.
  - intros x Hx. by apply Hsub, Hg.
  - intros x Hx. by apply Hsub, Hi.
  - eapply Forall_impl; [exact Ht|]. intros t Hx. by apply Hsub.
Qed.

Lemma known_on_task (f : Task State → Task State) k ts w :
  (∀ t, args (f t) = args t) → known ts w → known ts (on_task f k w).
Proof.
  intros Hf (HQ & Hg & Hi & Ht). repeat split; simpl; auto.
  apply Forall_alter; [exact Ht|]. intros t _ Hx. rewrite Hf. exact Hx.
Qed.

Lemma known_create ts w : known ts w → known ts (create_if_incoming w).
Proof.
  intros (HQ & Hg & Hi & Ht). unfold create_if_incoming.
  destruct (incoming w) as [x|] eqn:Hx.
  - assert (Hxin : x ∈ ts) by (by apply Hi).
    split; [exact HQ|]. split; [exact Hg|]. split; simpl.
    + intros y [= <-]. exact Hxin.
    + apply Forall_app. split; [exact Ht|]. constructor; [exact Hxin|constructor].
  - split; [exact HQ|]. split; [exact Hg|]. split; simpl; [|exact Ht].
    intros y Hy. discriminate.
Qed.

Lemma known_step ts w e : known ts w → known (ts ++ triggers [e]) (step w e).
Proof.
  intros K.
  assert (K' : known (ts ++ triggers [e]) w).
  { eapply known_mono; [|exact K]. intros x Hx. apply elem_of_app. auto. }
  destruct e as [s m| | | |k|k]; simpl.
  - destruct K' as (HQ & Hg & Hi & Ht). repeat split; simpl; auto.
    apply Forall_app. split; [exact HQ|]. constructor; [|constructor].
    apply elem_of_app. right. apply list_elem_of_here.
  - clear K. unfold c1_get.
    destruct (got w) eqn:Eg; [exact K'|].
    destruct (_Q w) as [|x q] eqn:EQ; [exact K'|].
    destruct K' as (HQ & Hg & Hi & Ht). rewrite EQ in HQ.
    apply Forall_cons in HQ as [Hx HQ].
    split; [exact HQ|]. split; [|split; [exact Hi | exact Ht]].
    simpl. intros y [= <-]. exact Hx.
  - clear K. unfold c1_set.
    destruct (got w) as [x|] eqn:Eg; [|exact K'].
    destruct K' as (HQ & Hg & Hi & Ht).
    split; [exact HQ|]. split; [simpl; discriminate|].
    split; [|exact Ht]. simpl. intros y [= <-]. by apply Hg.
  - clear K. unfold c2_step. destruct (c2 w).
    + destruct (event w); [|exact K']. destruct (task w) as [k|].
      * destruct K' as (HQ & Hg & Hi & Ht). repeat split; simpl; auto.
        apply Forall_alter; [exact Ht|]. intros t _ Hx.
        unfold request_cancel. destruct (status t); exact Hx.
      * apply known_create. destruct K' as (HQ & Hg & Hi & Ht).
        repeat split; simpl; auto.
    + destruct (task w) as [k|]; [|by apply known_create].
      destruct (tasks w !! k) as [t|]; [|by apply known_create].
      destruct (is_done t); [by apply known_create | exact K'].
  - apply known_on_task; [|exact K'].
    intros t. unfold unwind. destruct (status t); reflexivity.
  - apply known_on_task; [|exact K'].
    intros t. unfold finish. destruct (status t); reflexivity.
Qed.

Lemma known_run steps : known (triggers steps) (run init steps).
Proof.
  induction steps as [|e steps IH] using rev_ind.
  - repeat split; simpl; try constructor; discriminate.
  - rewrite SupervisorFacts.run_steps_app. unfold triggers. rewrite omap_app.
    apply (known_step _ _ e IH).
Qed.

(** X16.  Every task the loop ever creates runs on a trigger that
    [comp_func] has queued before: no task is made up, and without a trigger
    there is no task. *)
Theorem tasks_run_on_queued_triggers steps :
  (∀ t, t ∈ tasks (run (State:=State) init steps) → args t ∈ triggers steps) ∧
  (triggers steps = [] → tasks (run (State:=State) init steps) = []).
Proof.
  destruct (known_run steps) as (_ & _ & _ & Ht). rewrite Forall_forall in Ht.
  split; [exact Ht|]. intros Hnil.
  destruct (tasks (run init steps)) as [|t l] eqn:E; [reflexivity|].
  specialize (Ht t (list_elem_of_here _ _)). rewrite Hnil in Ht.
  by apply elem_of_nil in Ht.
Qed.

(** X17.  [omnifunc] with a non-zero [findstart] answers -1 and queues
    nothing.  With [findstart] 0 it answers the empty list and queues one
    manual trigger; once [c1] and [c2] have then worked off what is pending,
    without a newer trigger, the task that stands runs on that trigger, with
    [manual] true, and has not been asked to stop. *)
Theorem omnifunc_starts_a_manual_cycle steps findstart base (s : State) :
  let w := run init steps in
  (findstart ≠ 0 →
   omnifunc (Mapping:=Mapping) findstart base s w = (inl (-1), w)) ∧
  (findstart = 0 →
   let r := omnifunc (Mapping:=Mapping) findstart base s w in
   let w' := run (snd r) (settle (snd r)) in
   fst r = inr [] ∧ quiescent w' ∧
   ∃ k t, task w' = Some k ∧ tasks w' !! k = Some t ∧ args t = (s, true) ∧
          (status t = Running ∨ status t = Finished)).
Proof.
  cbv zeta. split.
  - intros H. unfold omnifunc. rewrite bool_decide_eq_true_2 by assumption.
    reflexivity.
  - intros ->. unfold omnifunc. rewrite bool_decide_eq_false_2 by tauto.
    cbn [fst snd]. split; [reflexivity|].
    set (w1 := comp_func s true (run init steps)).
    assert (E1 : w1 = run init (steps ++ [CompFunc s true])).
    { rewrite SupervisorFacts.run_steps_app. reflexivity. }
    assert (I1 : Inv w1).
    { rewrite E1. apply SupervisorFacts.Inv_run, SupervisorFacts.Inv_init. }
    destruct (SupervisorFacts.settle_quiescent w1 I1) as [Hq Hnt].
    split; [exact Hq|].
    assert (E2 : run w1 (settle w1) =
                 run init ((steps ++ [CompFunc s true]) ++ settle w1)).
    { rewrite (SupervisorFacts.run_steps_app init), <- E1. reflexivity. }
    destruct (SupervisorFacts.quiescent_runs_newest (run w1 (settle w1)) (s, true))
      as (k & t & Hk & Hl & Ha & Hs & _).
    + by apply SupervisorFacts.Inv_run.
    + exact Hq.
    + rewrite E2, SupervisorFacts.newest_run.
      unfold triggers in *. rewrite !omap_app, Hnt, app_nil_r. simpl.
      apply last_snoc.
    + eauto 10.
Qed.

End Omni.
End OmnifuncFacts.

(** Membership in an effect log: go through the log, one case per
    effect. *)
Ltac in_log H :=
  repeat match type of H with
         | _ ∈ _ ++ _ => apply elem_of_app in H as [H|H]
         | _ ∈ _ :: _ => apply elem_of_cons in H as [H|H]
         | _ ∈ [] => by apply elem_of_nil in H
         | _ ∈ (if ?b then _ else _) => destruct b eqn:?
         | _ = (if ?b then _ else _) => destruct b eqn:?
         end;
  try discriminate H.

(** ** The body of a completion cycle *)

Module CycleFacts.
Import Types Gating Cycle.

Section Body.
Context {Item RangeEdit VimComp : Type}.
Implicit Types (env : Env Item RangeEdit VimComp) (s : State Item RangeEdit)
  (ctx : Context).

(** X18.  [c0] puts candidates on display only for a context that passed
    [_should_cont] and whose change id is still the one of the state read
    after the collection; what it shows then is [trans] of what was
    collected for that context, at the column of that context.  Every other
    [complete] it issues shows nothing. *)
Theorem c0_never_shows_stale_candidates env s manual col comps :
  Complete col comps ∈ fst (c0 env s manual) →
  ∃ ctx,
    context_of env s manual = Some ctx ∧ col = snd (position ctx) ∧
    (comps = [] ∨
     (_should_cont s (context s) ctx = true ∧
      s_change_id (state_after env) = change_id ctx ∧
      comps = trans env (pum_width (state_after env)) ctx (collect env ctx))).
Proof.
  unfold c0. destruct (context_of env s manual) as [ctx|] eqn:Hc.
  - intros H. exists ctx. split; [reflexivity|].
    destruct (_should_cont s (context s) ctx) eqn:Hs; cbn [fst] in H;
      in_log H; injection H as -> ->; auto.
    split; [reflexivity|]. right. repeat split.
    eapply bool_decide_eq_true_1. eassumption.
  - cbn [fst]. intros H. in_log H.
Qed.

(** X19.  A cycle whose context is manual always goes to the engine: the
    context is committed, the collection in flight is interrupted, a new one
    is started for this context, and the insertion mark is not reset. *)
Theorem c0_manual_always_collects env s manual ctx :
  context_of env s manual = Some ctx → Types.manual ctx = true →
  ∃ warn rest,
    fst (c0 env s manual) =
      (warn ++ [GetContext s manual; CommitContext ctx; Interrupt; Collect ctx]
            ++ rest) ∧
    (ResetInsertedPos ∉ fst (c0 env s manual)) ∧
    snd (c0 env s manual) = inr tt.
Proof.
  intros Hc Hm. unfold c0. rewrite Hc.
  assert (Hs : _should_cont s (context s) ctx = true)
    by (unfold _should_cont; rewrite Hm; reflexivity).
  rewrite Hs. cbn [fst snd].
  exists (if locked env then [WarnLocked] else []). eexists.
  split; [|split; [|reflexivity]].
  - f_equal.
  - intros H. in_log H.
Qed.

(** X20.  A cycle that is not manual and finds the change id of the
    context it was started with never reaches the engine: it commits
    nothing, interrupts nothing and collects nothing; it clears the display
    at the column of the new context and resets the insertion mark. *)
Theorem c0_unchanged_document_clears env s manual ctx :
  context_of env s manual = Some ctx → Types.manual ctx = false →
  change_id (context s) = change_id ctx →
  c0 env s manual =
    ((if locked env then [WarnLocked] else []) ++
     [GetContext s manual; Complete (snd (position ctx)) []; ResetInsertedPos],
     inr tt).
Proof.
  intros Hc Hm Hid. unfold c0. rewrite Hc.
  assert (Hs : _should_cont s (context s) ctx = false).
  { unfold _should_cont. rewrite Hm, bool_decide_eq_true_2 by assumption.
    reflexivity. }
  rewrite Hs. reflexivity.
Qed.

(** X21.  The block of [c0] raises (to the [with_suppress] around it)
    exactly when [context] returns [None], on [ctx.position] of line 81; it
    has then shown nothing, committed nothing and reset nothing: the branch
    that clears the display is not taken. *)
Theorem c0_without_context env s manual :
  (snd (c0 env s manual) = inl AttributeError ↔
   context_of env s manual = None) ∧
  (context_of env s manual = None →
   fst (c0 env s manual) =
     (if locked env then [WarnLocked] else []) ++ [GetContext s manual]).
Proof.
  unfold c0. destruct (context_of env s manual) as [ctx|]; simpl.
  - split; [|discriminate].
    destruct (_should_cont s (context s) ctx); simpl; split; discriminate.
  - split; [split; reflexivity | reflexivity].
Qed.

End Body.
End CycleFacts.

(** ** [_comp_done] *)

Module CompDoneFacts.
Import Types CompDone.

Section Done.
Context {Item RangeEdit Exn Data : Type}.
Implicit Types (env : Env Item RangeEdit Exn Data)
  (metric : Metric Item RangeEdit) (s : State Item RangeEdit).

Lemma not_resolving (eff : Effect Item RangeEdit)
    (effs : list (Resolve.Effect Item)) :
  (∀ r, eff ≠ Resolving r) → eff ∈ Resolving <$> effs → False.
Proof.
  intros Hne H. apply list_elem_of_fmap in H as (r & -> & _). by apply (Hne r).
Qed.

(** The shape of the log once the event names a metric: the marks, then
    what [_resolve] does, then [apply_edit] on what it returns. *)
Lemma comp_done_shape env metric :
  selected env = Some metric →
  ∃ sync,
    (∀ eff, eff ∈ sync →
            eff = GetState ∨ eff = ClearNs ∨ (∃ lo hi, eff = GetLines lo hi) ∨
            ∃ e1 e2, eff = SetExtmarks e1 e2) ∧
    ((fst (_comp_done env) = sync ∧ snd (_comp_done env) = inl ValueError) ∨
     (∃ effs e,
        Resolve._resolve_with (wrapper env) metric (resolve_env env) =
          (effs, inl e) ∧
        fst (_comp_done env) = sync ++ (Resolving <$> effs) ∧
        snd (_comp_done env) = inl (ResolveError e)) ∨
     (∃ effs new_metric,
        Resolve._resolve_with (wrapper env) metric (resolve_env env) =
          (effs, inr new_metric) ∧
        fst (_comp_done env) =
          sync ++ (Resolving <$> effs) ++ apply_edit env (state env) new_metric ∧
        snd (_comp_done env) = inr tt)).
Proof.
  unfold selected, _comp_done.
  destruct (user_data env) as [data|]; [|discriminate]. simpl.
  destruct (decode env data) as [uid'|]; [|discriminate]. simpl.
  intros ->.
  destruct (position (context (state env))) as [row col].
  destruct (buf_get_lines env row (row + 1)) as [|before rest].
  - exists [GetState; ClearNs; GetLines row (row + 1)].
    split; [|left; split; reflexivity].
    intros eff H. in_log H; subst; eauto 10.
  - exists [GetState; ClearNs; GetLines row (row + 1);
            SetExtmarks {| idx := 1; begin := (row, 0); end_ := (row, col) |}
              {| idx := 2; begin := (row, col);
                 end_ := (row, encode_len env before) |}].
    split; [intros eff H; in_log H; subst; eauto 10|].
    destruct (Resolve._resolve_with (wrapper env) metric (resolve_env env))
      as [effs [e|new_metric]] eqn:Hr.
    + right; left. exists effs, e. repeat split; reflexivity.
    + right; right. exists effs, new_metric. repeat split; reflexivity.
Qed.

(** An effect of [apply_edit] in the log is one of [apply_edit] on the
    metric [_resolve] returned for the metric the event names. *)
Lemma comp_done_applied env eff :
  eff ∈ fst (_comp_done env) →
  (∃ s m, eff = Edit s m) ∨ (∃ p m u, eff = UpdateState p m u) ∨
  (∃ x, eff = Cmd x) ∨ eff = WarnDelayed →
  ∃ metric effs new_metric,
    selected env = Some metric ∧
    Resolve._resolve_with (wrapper env) metric (resolve_env env) =
      (effs, inr new_metric) ∧
    eff ∈ apply_edit env (state env) new_metric ∧
    ∀ eff', eff' ∈ apply_edit env (state env) new_metric →
            eff' ∈ fst (_comp_done env).
Proof.
  intros H Hkind.
  assert (Hnr : ∀ r, eff ≠ Resolving r).
  { intros r ->. destruct Hkind as [(?&?&?)|[(?&?&?&?)|[(?&?)|?]]]; discriminate. }
  assert (Hns : ¬ (eff = GetState ∨ eff = ClearNs ∨ (∃ lo hi, eff = GetLines lo hi) ∨
                   ∃ e1 e2, eff = SetExtmarks e1 e2)).
  { intros [->|[->|[(?&?&->)|(?&?&->)]]];
      destruct Hkind as [(?&?&?)|[(?&?&?&?)|[(?&?)|?]]]; discriminate. }
  destruct (selected env) as [metric|] eqn:Hsel.
  2: { unfold selected, _comp_done in *.
       destruct (user_data env) as [data|]; [|by apply elem_of_nil in H].
       simpl in *. destruct (decode env data) as [uid'|]; [|by apply elem_of_nil in H].
       simpl in *. rewrite Hsel in H. apply list_elem_of_singleton in H.
       exfalso. apply Hns. auto. }
  destruct (comp_done_shape env metric Hsel) as (sync & Hsync & Hshape).
  destruct Hshape as [[E _] | [(effs & e & Hr & E & _) | (effs & m' & Hr & E & _)]];
    rewrite E in H.
  - exfalso. apply Hns. by apply Hsync.
  - exfalso. apply elem_of_app in H as [H|H];
      [apply Hns; by apply Hsync | by eapply not_resolving].
  - apply elem_of_app in H as [H|H]; [exfalso; apply Hns; by apply Hsync|].
    apply elem_of_app in H as [H|H]; [exfalso; by eapply not_resolving|].
    exists metric, effs, m'. repeat split; auto.
    intros eff' H'. rewrite E. apply elem_of_app. right. apply elem_of_app. by right.
Qed.

(** X22.  Without a [user_data] that decodes to the uid of a metric in
    [stack.metrics], [_comp_done] reads the state at most: it touches no
    mark, starts no request, edits nothing and ends without an error. *)
Theorem comp_done_ignores_unknown_items env :
  selected env = None →
  (fst (_comp_done env) = [] ∨ fst (_comp_done env) = [GetState]) ∧
  snd (_comp_done env) = inr tt.
Proof.
  unfold selected, _comp_done.
  destruct (user_data env) as [data|]; simpl; [|auto].
  destruct (decode env data) as [uid'|]; simpl; [|auto].
  intros ->. auto.
Qed.

(** X23.  What [_comp_done] edits is the metric the event names, changed
    by [_resolve] in its [secondary_edits] at most, and only while its uid is
    still in [stack.metrics]; the state update that follows records that
    same metric as [last_edit], with the position [edit] returned, or
    (-1, -1) when it returned none. *)
Theorem comp_done_edits_the_selected_metric env s new_metric :
  Edit s new_metric ∈ fst (_comp_done env) →
  s = state env ∧
  is_Some (metrics_later env !! uid (comp new_metric)) ∧
  UpdateState (default (-1, -1) (edit env s new_metric)) new_metric (uuid4 env)
    ∈ fst (_comp_done env) ∧
  ∃ metric,
    selected env = Some metric ∧
    instance new_metric = instance metric ∧
    uid (comp new_metric) = uid (comp metric) ∧
    extern (comp new_metric) = extern (comp metric).
Proof.
  intros H.
  destruct (comp_done_applied env _ H) as (metric & effs & m' & Hsel & Hr & Hin & Hall);
    [eauto|].
  unfold apply_edit in Hin, Hall. case_bool_decide as Hlater; [|in_log Hin].
  assert (E : s = state env ∧ new_metric = m').
  { apply elem_of_app in Hin as [Hin|Hin].
    - in_log Hin. injection Hin as -> ->. auto.
    - destruct (extern (comp m')) as [[| |]|]; in_log Hin. }
  destruct E as [-> ->]. split; [reflexivity|]. split; [exact Hlater|]. split.
  - apply Hall. apply elem_of_app. left.
    apply elem_of_cons. right. apply elem_of_cons. left.
    destruct (edit env (state env) m'); reflexivity.
  - exists metric. split; [exact Hsel|].
    apply (ResolveMore.resolve_keeps
             (wrapper env) metric (resolve_env env)).
    rewrite Hr. reflexivity.
Qed.

(** X24.  [_comp_done] sends the command of an extern only after it has
    edited: the extern is the [ExternLSP] of the metric the event names, the
    uid of that metric is still in [stack.metrics], and the edit and the state
    update are in the log.  When the uid has gone meanwhile it warns and does
    none of the three. *)
Theorem comp_done_command_follows_edit env :
  (∀ x, Cmd x ∈ fst (_comp_done env) →
        ∃ metric new_metric,
          selected env = Some metric ∧ extern (comp metric) = Some x ∧
          isinstance_ExternLSP (Some x) = true ∧
          is_Some (metrics_later env !! uid (comp metric)) ∧
          Edit (state env) new_metric ∈ fst (_comp_done env)) ∧
  (WarnDelayed ∈ fst (_comp_done env) →
   ∀ eff, eff ∈ fst (_comp_done env) →
          (∀ s m, eff ≠ Edit s m) ∧ (∀ p m u, eff ≠ UpdateState p m u) ∧
          (∀ x, eff ≠ Cmd x)).
Proof.
  split.
  - intros x H.
    destruct (comp_done_applied env _ H) as (metric & effs & m' & Hsel & Hr & Hin & Hall);
      [eauto 10|].
    destruct (ResolveMore.resolve_keeps
                (wrapper env) metric (resolve_env env) m') as (_ & Hu & He);
      [rewrite Hr; reflexivity|].
    unfold apply_edit in Hin, Hall. case_bool_decide as Hlater; [|in_log Hin].
    exists metric, m'. split; [exact Hsel|].
    assert (Hx : extern (comp m') = Some x ∧ isinstance_ExternLSP (Some x) = true).
    { apply elem_of_app in Hin as [Hin|Hin]; [in_log Hin|].
      destruct (extern (comp m')) as [[cl it|d|]|]; in_log Hin.
      injection Hin as ->. auto. }
    destruct Hx as [Hx Hl]. rewrite <- He, <- Hu. repeat split; auto.
    apply Hall. apply elem_of_app. left. apply list_elem_of_here.
  - intros H.
    destruct (comp_done_applied env _ H) as (metric & effs & m' & Hsel & Hr & Hin & _);
      [auto 10|].
    assert (Hgone : apply_edit env (state env) m' = [WarnDelayed]).
    { unfold apply_edit in *. case_bool_decide; [|reflexivity].
      apply elem_of_app in Hin as [Hin|Hin]; [in_log Hin|].
      destruct (extern (comp m')) as [[| |]|]; in_log Hin. }
    intros eff Heff.
    assert (Hcase : (∃ s m, eff = Edit s m) ∨ (∃ p m u, eff = UpdateState p m u) ∨
                    (∃ x, eff = Cmd x) → False).
    { intros Hk.
      destruct (comp_done_applied env eff Heff)
        as (metric2 & effs2 & m2 & Hsel2 & Hr2 & Hin2 & _); [tauto|].
      rewrite Hsel in Hsel2. injection Hsel2 as <-.
      rewrite Hr in Hr2. injection Hr2 as <- <-.
      rewrite Hgone in Hin2. apply list_elem_of_singleton in Hin2. subst eff.
      destruct Hk as [(?&?&?)|[(?&?&?&?)|(?&?)]]; discriminate. }
    repeat split; intros; intros ->; apply Hcase; eauto 10.
Qed.

End Done.
End CompDoneFacts.

(** ** What [_load_snips] cleans and loads *)

Module SnippetsFacts.
Import Snippets.

Section Plan.
Context {Float : Type} (gt : Float → Float → bool) (neg_inf : Float).
Implicit Types (mtimes bundled user_compiled : gmap string Float).

Lemma compiled_lookup mtimes bundled user_compiled path mtime :
  compiled gt neg_inf mtimes bundled user_compiled !! path = Some mtime ↔
  newer gt neg_inf mtimes path mtime = true ∧
  (user_compiled !! path = Some mtime ∨
   (bundled !! path = Some mtime ∧
    ∀ t, user_compiled !! path = Some t → newer gt neg_inf mtimes path t = false)).
Proof.
  unfold compiled. rewrite lookup_union_Some_raw.
  rewrite !map_lookup_filter_Some, map_lookup_filter_None. simpl. split.
  - intros [[H1 H2] | [[Hn | Hn] [H1 H2]]]; [tauto| |].
    + split; [exact H2|]. right. split; [exact H1|]. intros t Ht. congruence.
    + split; [exact H2|]. right. split; [exact H1|]. intros t Ht.
      specialize (Hn t Ht). simpl in Hn. by destruct (newer gt neg_inf mtimes path t).
  - intros [Hn [H | [H Hu]]]; [left; tauto|]. right. split; [|tauto].
    destruct (user_compiled !! path) as [t|] eqn:E; [right|left; reflexivity].
    intros t' [= <-]. simpl. rewrite (Hu t eq_refl). discriminate.
Qed.

(** X25.  What [_load_snips] sets out to load are files it has just found,
    each with a modification time it has just read, and only those whose
    time is above the one the database records, or above [-inf] when it
    records none (by Python's [>]).  Where the compiled user file and a
    bundled file have the same path, the time of the user file is the one
    taken, unless only the bundled one is new.  A file with a time above
    [-inf] that the database has no record of is always among them. *)
Theorem compiled_are_newer_files mtimes bundled user_compiled :
  (∀ path mtime,
     compiled gt neg_inf mtimes bundled user_compiled !! path = Some mtime →
     gt mtime (default neg_inf (mtimes !! path)) = true ∧
     (user_compiled !! path = Some mtime ∨
      (bundled !! path = Some mtime ∧
       ∀ t, user_compiled !! path = Some t →
            gt t (default neg_inf (mtimes !! path)) = false))) ∧
  (∀ path mtime,
     mtimes !! path = None → gt mtime neg_inf = true →
     bundled !! path = Some mtime ∨ user_compiled !! path = Some mtime →
     is_Some (compiled gt neg_inf mtimes bundled user_compiled !! path)).
Proof.
  split.
  - intros path mtime H. by apply compiled_lookup in H.
  - intros path mtime Hnone Hgt H.
    assert (Hn : newer gt neg_inf mtimes path mtime = true)
      by (unfold newer; rewrite Hnone; exact Hgt).
    destruct H as [Hb | Hu].
    + destruct (user_compiled !! path) as [t|] eqn:Eu.
      * destruct (newer gt neg_inf mtimes path t) eqn:Et.
        -- exists t. apply compiled_lookup. split; [exact Et | left; exact Eu].
        -- exists mtime. apply compiled_lookup. split; [exact Hn|]. right.
           split; [exact Hb|]. intros t' Ht'. congruence.
      * exists mtime. apply compiled_lookup. split; [exact Hn|]. right.
        split; [exact Hb | intros t' Ht'; congruence].
    + exists mtime. apply compiled_lookup. split; [exact Hn | left; exact Hu].
Qed.

(** X26.  Loading is not repeated: when the database records for every
    file found the very modification time the file has now, nothing is set
    out to be loaded, given that [>] never holds between a time and
    itself. *)
Theorem nothing_is_loaded_twice mtimes bundled user_compiled :
  (∀ t, gt t t = false) →
  (∀ path t, bundled !! path = Some t ∨ user_compiled !! path = Some t →
             mtimes !! path = Some t) →
  compiled gt neg_inf mtimes bundled user_compiled = ∅.
Proof.
  intros Hirr Hrec. apply map_empty. intros path.
  destruct (compiled gt neg_inf mtimes bundled user_compiled !! path) as [t|] eqn:E;
    [|reflexivity].
  exfalso. apply compiled_lookup in E as [Hn H].
  assert (Hm : mtimes !! path = Some t) by (apply Hrec; tauto).
  unfold newer in Hn. rewrite Hm in Hn. simpl in Hn. rewrite Hirr in Hn.
  discriminate.
Qed.

(** X27.  What is cleaned from the database and what is loaded never
    overlap: a stale path is one the database knows and no file was found
    for, and no stale path is set out to be loaded. *)
Theorem stale_paths_are_not_loaded mtimes bundled user_compiled path :
  path ∈ stale mtimes bundled user_compiled →
  is_Some (mtimes !! path) ∧ bundled !! path = None ∧
  user_compiled !! path = None ∧
  compiled gt neg_inf mtimes bundled user_compiled !! path = None.
Proof.
  unfold stale. rewrite elem_of_difference, not_elem_of_union.
  rewrite elem_of_dom, !not_elem_of_dom. intros (Hm & Hb & Hu).
  repeat split; auto.
  destruct (compiled gt neg_inf mtimes bundled user_compiled !! path) as [t|] eqn:E;
    [|reflexivity].
  apply compiled_lookup in E as [_ [H | [H _]]]; congruence.
Qed.

End Plan.
End SnippetsFacts.

(** ** The loop at rest *)

Module SupervisorMore.
Import Supervisor.

Section Loop.
Context {State : Type}.
Implicit Types (w : Loop State) (e : Step State) (steps : list (Step State)).

Lemma rest_step w e :
  quiescent w → triggers [e] = [] →
  quiescent (step w e) ∧ task (step w e) = task w ∧
  length (tasks (step w e)) = length (tasks w).
Proof.
  intros (HQ & Hg & He & Hc) Hnt.
  destruct e as [s m| | | |k|k]; simpl in *; try discriminate.
  - unfold c1_get. rewrite Hg, HQ. repeat split; auto.
  - unfold c1_set. rewrite Hg. repeat split; auto.
  - unfold c2_step. rewrite Hc, He. repeat split; auto.
  - repeat split; auto. apply length_alter.
  - repeat split; auto. apply length_alter.
Qed.

Lemma triggers_cons e steps :
  triggers (e :: steps) = triggers [e] ++ triggers steps.
Proof. unfold triggers. simpl. destruct e; reflexivity. Qed.

Lemma rest_run steps : ∀ w,
  quiescent w → triggers steps = [] →
  quiescent (run w steps) ∧ task (run w steps) = task w ∧
  length (tasks (run w steps)) = length (tasks w).
Proof.
  induction steps as [|e steps IH]; intros w Hq Hnt; [auto|].
  rewrite triggers_cons in Hnt. apply app_eq_nil in Hnt as [H1 H2].
  destruct (rest_step w e Hq H1) as (Hq1 & Ht1 & Hl1).
  destruct (IH (step w e) Hq1 H2) as (Hq2 & Ht2 & Hl2).
  simpl. rewrite Ht2, Hl2. auto.
Qed.

(** X28.  Only a trigger ends a rest.  Once [c1] and [c2] have nothing
    left to do, whatever is scheduled without a new trigger leaves them at
    rest: no task is created, [task] still names the same task, and that task
    is still not asked to stop: it runs or has finished. *)
Theorem only_a_trigger_ends_a_rest steps more :
  quiescent (run (State:=State) init steps) → triggers more = [] →
  let w := run (State:=State) init steps in
  let w' := run (State:=State) init (steps ++ more) in
  quiescent w' ∧ task w' = task w ∧ length (tasks w') = length (tasks w) ∧
  ∀ k t, task w' = Some k → tasks w' !! k = Some t →
         status t = Running ∨ status t = Finished.
Proof.
  intros Hq Hnt. cbv zeta. rewrite SupervisorFacts.run_steps_app.
  destruct (rest_run more _ Hq Hnt) as (Hq' & Ht & Hl).
  split; [exact Hq'|]. split; [exact Ht|]. split; [exact Hl|].
  assert (I : Inv (run (run init steps) more)).
  { apply SupervisorFacts.Inv_run, SupervisorFacts.Inv_run, SupervisorFacts.Inv_init. }
  apply (inv_event _ I). apply Hq'.
Qed.

End Loop.
End SupervisorMore.

(** ** Further scenarios *)

Module MoreScenarios.
Import Samples MoreSamples.

Local Open Scope string_scope.
Local Open Scope Z_scope.

Lemma consumer_never_ahead_witness :
  Request.f_uid (the_consumer Request.AtWait) ≤
    Request.uid (Request.session (fst (Request.run Request.init done_schedule))
                   channel) ∧
  Request.f_uid (the_consumer Request.AtWait) <
    Request._UIDS (Request.reg (fst (Request.run Request.init done_schedule))).
Proof.
  apply (RequestMore.consumer_never_ahead done_schedule 0
           (the_consumer Request.AtWait)).
  reflexivity.
Defined.

Lemma channels_witness :
  Request.session (fst (Request.step one_yielded (Request.Open "lsp_resolve")))
    channel = Request.session one_yielded channel ∧
  Request.frames (fst (Request.step one_yielded (Request.Open "lsp_resolve")))
    !! 0%nat = Some (the_consumer Request.AtWait).
Proof.
  destruct (RequestMore.channels_do_not_interfere one_yielded
              (Request.Open "lsp_resolve") channel) as [H1 H2].
  - discriminate.
  - split; [exact H1|].
    apply (H2 0%nat (the_consumer Request.AtWait));
      [reflexivity | discriminate | left; reflexivity].
Defined.

Lemma accumulate_witness :
  Request.session (RequestAux.ingest_all two_payloads waiting) channel =
    {| Request.uid := 0; Request.done := true;
       Request.acc := [item "a"; item "b"] |}.
Proof.
  apply (RequestMore.replies_accumulate_in_order two_payloads waiting channel).
  repeat constructor.
Defined.

Lemma open_hides_witness :
  Request.session
    (Request._lsp_notify (payload 0 true "late")
       (snd (Request.async_request_open channel one_yielded))) channel =
    {| Request.uid := 1; Request.done := false; Request.acc := [] |}.
Proof.
  apply (RequestMore.open_hides_earlier_replies one_yielded channel
           (payload 0 true "late")).
  - reflexivity.
  - vm_compute. reflexivity.
Defined.

Lemma stale_wakes_witness :
  Request.frames (Request._lsp_notify (payload 5 false "x") one_yielded) !! 0%nat =
    Some (the_consumer Request.AtLoop) ∧
  Request.yielded_by 0
    (snd (Request.run one_yielded
            [Request.Ingest (payload 5 false "x"); Request.Advance 0;
             Request.Advance 0])) = [item "a"].
Proof.
  destruct (RequestMore.stale_payload_wakes_consumer one_yielded 0
              (the_consumer Request.AtWait) (payload 5 false "x")
              [Request.Advance 0] eq_refl eq_refl eq_refl) as [H1 H2].
  - vm_compute. discriminate.
  - split; [exact H1|]. apply H2; [reflexivity | vm_compute; lia].
Defined.

Lemma unknown_channel_witness :
  Request._STATE (Request.reg (Request._lsp_notify (payload 3 true "x") Request.init))
    !! channel = Some Request.default_session.
Proof.
  apply (RequestMore.payload_for_unknown_channel Request.init (payload 3 true "x")).
  reflexivity.
Defined.

Lemma current_consumer_witness :
  Request.pc (the_consumer Request.AtWait) ≠ Request.Returned ∧
  Request.f_done (the_consumer Request.AtWait) = false.
Proof.
  apply (RequestMore.current_consumer_never_ends done_schedule 0
           (the_consumer Request.AtWait)); reflexivity.
Defined.

Lemma fatal_call_witness :
  Executor._forever [job answering 0; job fatal 1; job answering 2] three_pending =
    ([job answering 2],
     [Executor.FINISHED (inl 3%nat); Executor.PENDING; Executor.PENDING],
     false).
Proof.
  apply (ExecutorMore.fatal_call_stops_the_worker [job answering 0]
           [job answering 2] three_pending (job fatal 1) tt).
  - repeat constructor.
  - reflexivity.
  - simpl. lia.
Defined.

Lemma queued_calls_witness :
  Forall (λ j, snd (fst (Executor._forever [job failing 0; job answering 1]
                           [Executor.PENDING; Executor.PENDING]))
               !! Executor.j_fut j =
             Some (Executor.settled (Executor.j_f j (Executor.j_args j))))
    [job failing 0; job answering 1].
Proof.
  apply (ExecutorMore.every_queued_call_is_answered
           [job failing 0; job answering 1]
           [Executor.PENDING; Executor.PENDING]).
  - repeat constructor.
  - apply NoDup_cons. split; [|apply NoDup_singleton].
    intros H. apply list_elem_of_singleton in H. discriminate.
  - repeat constructor.
Defined.

Lemma submit_blocks_witness :
  fst (Executor.submit fatal tt Executor.new) = Executor.Blocked ∧
  Executor.worker (snd (Executor.submit fatal tt Executor.new)) = false ∧
  fst (Executor.submit answering tt (snd (Executor.submit fatal tt Executor.new))) =
    Executor.Blocked.
Proof.
  apply (ExecutorMore.submit_blocks_after_fatal_call fatal tt answering tt
           Executor.new tt).
  - reflexivity.
  - apply List.Forall_nil.
  - reflexivity.
Defined.

Lemma resolve_keeps_witness :
  Types.instance resolved = 1%N ∧ Types.uid (Types.comp resolved) = 7%N ∧
  Types.extern (Types.comp resolved) = Some lsp_extern.
Proof.
  destruct (ResolveMore.resolve_changes_secondary_edits_only plain_task
              (a_metric (Some lsp_extern))
              (an_env (Resolve.Replied (Some enriched))) resolved eq_refl)
    as (H1 & H2 & H3 & _).
  auto.
Defined.

Lemma resolve_cancel_witness :
  fst (Resolve._resolve_with plain_task (a_metric (Some lsp_extern))
         (an_env Resolve.Silent)) =
    [Resolve.LruGet 7%N; Resolve.Go lsp_extern; Resolve.Wait; Resolve.Cancel 1].
Proof.
  destruct (ResolveMore.resolve_cancels_only_pending plain_task
              (a_metric (Some lsp_extern)) (an_env Resolve.Silent)
              (Some "pyright") "item" eq_refl eq_refl)
    as [H _].
  exact H.
Defined.

Lemma c0_shows_fresh_witness :
  ∃ c, Cycle.context_of (cycle_env manual_ctx) fresh_state true = Some c ∧
       5 = snd (Types.position c).
Proof.
  destruct (CycleFacts.c0_never_shows_stale_candidates (cycle_env manual_ctx)
              fresh_state true 5 ["candidate"]) as (c & Hc & Hcol & _).
  - vm_compute. repeat constructor.
  - exists c. auto.
Defined.

Lemma c0_manual_witness :
  Cycle.ResetInsertedPos ∉ fst (Cycle.c0 (cycle_env manual_ctx) fresh_state true).
Proof.
  destruct (CycleFacts.c0_manual_always_collects (cycle_env manual_ctx)
              fresh_state true manual_ctx eq_refl eq_refl)
    as (warn & rest & _ & H & _).
  exact H.
Defined.

Lemma c0_unchanged_witness :
  Cycle.c0 (cycle_env same_change_ctx) (a_state (3, 4) None) false =
    ([Cycle.GetContext (a_state (3, 4) None) false; Cycle.Complete 5 [];
      Cycle.ResetInsertedPos], inr tt).
Proof.
  apply (CycleFacts.c0_unchanged_document_clears (cycle_env same_change_ctx)
           (a_state (3, 4) None) false same_change_ctx); reflexivity.
Defined.

Lemma comp_done_unknown_witness :
  snd (CompDone._comp_done (done_env None ∅)) = inr tt.
Proof.
  destruct (CompDoneFacts.comp_done_ignores_unknown_items (done_env None ∅)
              eq_refl) as [_ H].
  exact H.
Defined.

Lemma comp_done_edit_witness :
  CompDone.UpdateState (0, 9) resolved 11%N
    ∈ fst (CompDone._comp_done (done_env (Some "7") {[ 7%N := resolved ]})).
Proof.
  destruct (CompDoneFacts.comp_done_edits_the_selected_metric
              (done_env (Some "7") {[ 7%N := resolved ]})
              (a_state (0, 0) None) resolved) as (_ & _ & H & _).
  - vm_compute. repeat constructor.
  - exact H.
Defined.

Lemma loaded_once_witness :
  Snippets.compiled gt NegInf on_disk on_disk ∅ = ∅.
Proof.
  apply (SnippetsFacts.nothing_is_loaded_twice gt NegInf on_disk on_disk ∅).
  - intros [|t]; [reflexivity|]. simpl. rewrite Z.gtb_ltb. apply Z.ltb_irrefl.
  - intros path t [H|H]; [exact H|]. rewrite lookup_empty in H. discriminate.
Defined.

Lemma stale_witness :
  Snippets.compiled gt NegInf recorded_gone on_disk ∅ !! "gone.json" = None.
Proof.
  apply (SnippetsFacts.stale_paths_are_not_loaded gt NegInf recorded_gone on_disk ∅
           "gone.json").
  vm_compute. reflexivity.
Defined.

Lemma rest_witness :
  Supervisor.quiescent (Supervisor.run Supervisor.init (burst ++ idle_steps)) ∧
  Supervisor.task (Supervisor.run Supervisor.init (burst ++ idle_steps)) = Some 1%nat.
Proof.
  destruct (SupervisorMore.only_a_trigger_ends_a_rest burst idle_steps)
    as (H1 & H2 & _).
  - repeat split.
  - reflexivity.
  - split; [exact H1|]. rewrite H2. reflexivity.
Defined.

End MoreScenarios.
